(** * optimize-images: a shallow embedding of the image pipeline

    The repository holds two revisions of one Node.js script:
    - [optimize-images.js]: discovery through [glob], one plain loop;
    - the script shipped next to the README: discovery through an explicit
      worklist ([getAllFilesIterative]), files handled in batches of ten,
      elapsed-time reporting.
    Both share [processImage], the per-file transformer.

    The embedding keeps the script's structure.  File contents live in a
    finite map from paths to bytes; every call on a file that leaves the
    script (sharp, imagemin, fs) is recorded in a call trace, every console
    line in an output trace; exceptions and [process.exit] are outcomes of
    a small monad, so that [try]/[catch] is a combinator and not a
    convention. *)

From Stdlib Require Import Ascii String List ZArith NArith Lia.
From Stdlib.Init Require Import Byte.
From Stdlib.Strings Require Byte.
From stdpp Require Import base tactics option list gmap strings pretty.
From Equations Require Import Equations.

Local Open Scope string_scope.
Local Open Scope list_scope.

(** ** Strings, as the script uses them *)

Module Str.

Definition chars (s : string) : list ascii := list_ascii_of_string s.
Definition of_chars (l : list ascii) : string := string_of_list_ascii l.

Definition is_upper (c : ascii) : bool :=
  let n := N_of_ascii c in ((65 <=? n) && (n <=? 90))%N.

(** [String.prototype.toLowerCase], on the ASCII range.  Code units above
    127 are kept as they are; none of them lowers to a letter of a
    recognised extension. *)
Definition lower_char (c : ascii) : ascii :=
  if is_upper c then ascii_of_N (N_of_ascii c + 32) else c.

Definition toLowerCase (s : string) : string :=
  of_chars (map lower_char (chars s)).

Definition is_slash (c : ascii) : bool := Ascii.eqb c "/".
Definition is_dot (c : ascii) : bool := Ascii.eqb c ".".

(** Splits a list at its first dot: the part before it, and the part
    after it when there is a dot. *)
Fixpoint split_dot (l : list ascii) : list ascii * option (list ascii) :=
  match l with
  | [] => ([], None)
  | c :: l' =>
      if is_dot c then ([], Some l')
      else let '(a, b) := split_dot l' in (c :: a, b)
  end.

Fixpoint drop_while (f : ascii -> bool) (l : list ascii) : list ascii :=
  match l with
  | [] => []
  | c :: l' => if f c then drop_while f l' else l
  end.

Fixpoint take_while (f : ascii -> bool) (l : list ascii) : list ascii :=
  match l with
  | [] => []
  | c :: l' => if f c then c :: take_while f l' else []
  end.

(** The last component of a path, reversed: Node scans the path from its
    end, skips trailing separators and stops at the next one. *)
Definition rev_basename (p : list ascii) : list ascii :=
  take_while (fun c => negb (is_slash c)) (drop_while is_slash (rev p)).

(** [path.extname] (POSIX flavour).  The extension runs from the last dot
    of the last component to its end; it is empty when the component has
    no dot, when its only dot is its first character, and when the
    component is [".."]. *)
Definition extname_chars (p : list ascii) : list ascii :=
  match split_dot (rev_basename p) with
  | (_, None) => []
  | (_, Some []) => []
  | ([], Some ["."%char]) => []
  | (suffix, Some _) => "."%char :: rev suffix
  end.

Definition extname (p : string) : string := of_chars (extname_chars (chars p)).

(** [Array.prototype.includes] on an array of strings. *)
Definition includes (l : list string) (s : string) : bool :=
  existsb (String.eqb s) l.

(** [s.startsWith(".")]. *)
Definition starts_with_dot (s : string) : bool :=
  match s with
  | String c _ => is_dot c
  | EmptyString => false
  end.

Fixpoint is_prefix (a b : list ascii) : bool :=
  match a, b with
  | [], _ => true
  | x :: a', y :: b' => Ascii.eqb x y && is_prefix a' b'
  | _ :: _, [] => false
  end.

(** [s.endsWith(t)]. *)
Definition ends_with (s t : string) : bool :=
  is_prefix (rev (chars t)) (rev (chars s)).

End Str.

(** ** Constants of the script *)

Definition MAX_WIDTH : N := 2500.

Definition IMAGE_EXTENSIONS : list string :=
  [".jpg"; ".jpeg"; ".png"; ".gif"; ".webp"; ".svg"].

(** ** Data *)

(** File contents and buffers. *)
Abbreviation content := (list byte).

(** A JavaScript [Error]; the script only ever reads its [message]. *)
Record Error : Type := mkError { message : string }.

(** What [sharp(...).metadata()] resolves to.  The script reads [width]
    only, which sharp leaves [undefined] for inputs without pixel size. *)
Record Metadata : Type := mkMetadata { width : option N }.

(** The imagemin plugins the script instantiates, with their options.
    pngquant's [quality: [0.65, 0.8]] is kept in hundredths. *)
Inductive Plugin : Type :=
| imageminMozjpeg (quality : N)
| imageminPngquant (quality_min quality_max : N)
| imageminGifsicle
| imageminSvgo
| imageminWebp (quality : N).

(** The two ways [sharp(...).resize(...).toFile(dst)] ends: the whole output
    is on disk, or the promise rejects, possibly after part of the output
    reached the destination. *)
Inductive ToFile : Type :=
| Written (data : content)
| WriteFailed (partial : option content) (e : Error).

(** A directory tree as [fs.readdirSync(dir, {withFileTypes: true})] shows
    it: regular files, directories that list their entries, directories
    whose listing throws, and entries that are neither file nor directory
    for [Dirent] (symbolic links, sockets, devices). *)
#[warnings="-register-all"]
Inductive Node : Type :=
| File
| Dir (entries : list (string * Node))
| Unlistable (e : Error)
| Other.

(** The collaborators of the script: codec libraries, the directory tree
    under the working directory, [process.cwd()], [glob], and the clock:
    [elapsed_ms n] is [Date.now() - startTime.getTime()] as read when the
    estimate is computed after the [n]-th file. *)
Record Env : Type := mkEnv {
  sharp_metadata : content -> Error + Metadata;
  sharp_resize : content -> N -> ToFile;
  imagemin_plugin : Plugin -> content -> Error + content;
  root : Node;
  process_cwd : Error + string;
  glob : string -> Error + list string;
  elapsed_ms : nat -> N
}.

(** Calls on image files that leave the script (sharp, imagemin, fs), in
    the order they are made. *)
Inductive Op : Type :=
| OpMetadata (p : string)
| OpToFile (src dst : string)
| OpUnlink (p : string)
| OpRename (src dst : string)
| OpStat (p : string)
| OpReadFile (p : string)
| OpImagemin (plugins : list Plugin)
| OpWriteFile (p : string).

(** Console lines, one constructor per template of the two scripts.  Fields
    that are wall-clock readings (elapsed time, dates) and percentages, which
    are floating-point roundings, are left out. *)
Inductive LogLine : Type :=
| LProcessing (p : string)
| LWidthOk (w : option N)
| LResizing (w : option N)
| LOptimized (originalSize newSize : nat)
| LKeepingOriginal
| LCompleted (p : string)
| LErrorProcessing (p : string) (msg : string)
| LErrorReadingDirectory (dir : string) (msg : string)
| LStarting
| LStartTime
| LCurrentDirectory (cwd : string)
| LFound (n : nat)
| LBatch (k n : nat)
| LProgress (completed total : nat)
| LProgressRunning (completed total : nat)
| LEstimatedCompletion
| LFailedToProcess (p : string) (e : Error)
| LAllProcessed
| LTotalTime
| LStarted
| LFinished
| LErrorFinding (msg : string)
| LErrorFindingObject (e : Error)
| LAnErrorOccurred (e : Error).

(** ** The effect monad *)

Inductive Outcome (A : Type) : Type :=
| Ret (a : A)
| Throw (e : Error)
| Exit (code : Z).
Arguments Ret {A} a.
Arguments Throw {A} e.
Arguments Exit {A} code.

(** The result of running a piece of the script from a given disk: how it
    ended, the disk it leaves, the calls it made and the lines it printed. *)
Record Res (A : Type) : Type := mkRes {
  outcome : Outcome A;
  disk : gmap string content;
  ops : list Op;
  out : list LogLine
}.
Arguments mkRes {A} outcome disk ops out.
Arguments outcome {A} r.
Arguments disk {A} r.
Arguments ops {A} r.
Arguments out {A} r.

Definition M (A : Type) : Type := gmap string content -> Res A.

Definition ret {A} (a : A) : M A := fun d => mkRes (Ret a) d [] [].

Definition throw {A} (e : Error) : M A := fun d => mkRes (Throw e) d [] [].

(** [process.exit(code)]: nothing of the script runs after it. *)
Definition process_exit {A} (code : Z) : M A := fun d => mkRes (Exit code) d [] [].

Definition bind {A B} (m : M A) (k : A -> M B) : M B := fun d =>
  let r := m d in
  match outcome r with
  | Ret a =>
      let r' := k a (disk r) in
      mkRes (outcome r') (disk r') (ops r ++ ops r') (out r ++ out r')
  | Throw e => mkRes (Throw e) (disk r) (ops r) (out r)
  | Exit c => mkRes (Exit c) (disk r) (ops r) (out r)
  end.

(** [try { m } catch (error) { h error }]. *)
Definition try_catch {A} (m : M A) (h : Error -> M A) : M A := fun d =>
  let r := m d in
  match outcome r with
  | Throw e =>
      let r' := h e (disk r) in
      mkRes (outcome r') (disk r') (ops r ++ ops r') (out r ++ out r')
  | _ => r
  end.

Declare Scope js_scope.
Delimit Scope js_scope with js.
Notation "x <- m ;; k" := (bind m (fun x => k))
  (at level 100, m at next level, right associativity) : js_scope.
Notation "m ;;; k" := (bind m (fun _ => k))
  (at level 100, right associativity) : js_scope.
Local Open Scope js_scope.

(** [console.log] and [console.error]. *)
Definition console (l : LogLine) : M unit := fun d => mkRes (Ret tt) d [] [l].

Definition call (o : Op) : M unit := fun d => mkRes (Ret tt) d [o] [].

Definition get_disk : M (gmap string content) := fun d => mkRes (Ret d) d [] [].

Definition put_disk (d' : gmap string content) : M unit :=
  fun _ => mkRes (Ret tt) d' [] [].

Definition lift_result {A} (r : Error + A) : M A :=
  match r with
  | inl e => throw e
  | inr a => ret a
  end.

Definition ENOENT (syscall path : string) : Error :=
  mkError ("ENOENT: no such file or directory, " +:+ syscall +:+ " '" +:+ path +:+ "'").

(** JavaScript's [<=] and [>] between a possibly [undefined] number and a
    number: both are false at [undefined]. *)
Definition js_le (a : option N) (b : N) : bool :=
  match a with
  | Some n => (n <=? b)%N
  | None => false
  end.

Definition js_gt (a : option N) (b : N) : bool :=
  match a with
  | Some n => (b <? n)%N
  | None => false
  end.

(** ** The per-file transformer *)

Section Transformer.

Context (E : Env).

(** [await sharp(p).metadata()]. *)
Definition sharp_probe (p : string) : M Metadata :=
  call (OpMetadata p) ;;;
  d <- get_disk ;;
  match d !! p with
  | None => throw (mkError ("Input file is missing: " +:+ p))
  | Some c => lift_result (sharp_metadata E c)
  end.

(** [await sharp(src).resize({ width, withoutEnlargement: true }).toFile(dst)]. *)
Definition sharp_toFile (src : string) (w : N) (dst : string) : M unit :=
  call (OpToFile src dst) ;;;
  d <- get_disk ;;
  match d !! src with
  | None => throw (mkError ("Input file is missing: " +:+ src))
  | Some c =>
      match sharp_resize E c w with
      | Written data => put_disk (<[dst := data]> d)
      | WriteFailed None e => throw e
      | WriteFailed (Some data) e => put_disk (<[dst := data]> d) ;;; throw e
      end
  end.

Definition unlinkSync (p : string) : M unit :=
  call (OpUnlink p) ;;;
  d <- get_disk ;;
  match d !! p with
  | None => throw (ENOENT "unlink" p)
  | Some _ => put_disk (delete p d)
  end.

Definition renameSync (src dst : string) : M unit :=
  call (OpRename src dst) ;;;
  d <- get_disk ;;
  match d !! src with
  | None => throw (ENOENT "rename" src)
  | Some c => put_disk (<[dst := c]> (delete src d))
  end.

(** [fs.statSync(p).size]. *)
Definition statSync_size (p : string) : M nat :=
  call (OpStat p) ;;;
  d <- get_disk ;;
  match d !! p with
  | None => throw (ENOENT "stat" p)
  | Some c => ret (length c)
  end.

Definition readFileSync (p : string) : M content :=
  call (OpReadFile p) ;;;
  d <- get_disk ;;
  match d !! p with
  | None => throw (ENOENT "open" p)
  | Some c => ret c
  end.

Definition writeFileSync (p : string) (data : content) : M unit :=
  call (OpWriteFile p) ;;;
  d <- get_disk ;;
  put_disk (<[p := data]> d).

(** imagemin pipes the buffer through the plugins, in order. *)
Fixpoint run_plugins (plugins : list Plugin) (buf : content) : Error + content :=
  match plugins with
  | [] => inr buf
  | p :: rest =>
      match imagemin_plugin E p buf with
      | inl e => inl e
      | inr b => run_plugins rest b
      end
  end.

(** [await imagemin.buffer(input, { plugins })]. *)
Definition imagemin_buffer (input : content) (plugins : list Plugin) : M content :=
  call (OpImagemin plugins) ;;;
  lift_result (run_plugins plugins input).

(** The plugin list built by the [if]/[else if] chain. *)
Definition plugins_for (extension : string) : list Plugin :=
  if Str.includes [".jpg"; ".jpeg"] extension then [imageminMozjpeg 80]
  else if String.eqb extension ".png" then [imageminPngquant 65 80]
  else if String.eqb extension ".gif" then [imageminGifsicle]
  else if String.eqb extension ".svg" then [imageminSvgo]
  else if String.eqb extension ".webp" then [imageminWebp 80]
  else [].

(** "Resize the image if needed": write the temporary file, then replace
    the original with it. *)
Definition resize_step (imagePath : string) (metadata : Metadata) : M unit :=
  let tempPath := imagePath +:+ ".temp" in
  if js_gt (width metadata) MAX_WIDTH then
    sharp_toFile imagePath MAX_WIDTH tempPath ;;;
    unlinkSync imagePath ;;;
    renameSync tempPath imagePath
  else ret tt.

(** "Only write if optimization actually reduced the size". *)
Definition commit_step (imagePath : string) (originalSize : nat)
    (optimizedBuffer : content) : M unit :=
  if (length optimizedBuffer <? originalSize)%nat then
    writeFileSync imagePath optimizedBuffer ;;;
    newSize <- statSync_size imagePath ;;
    console (LOptimized originalSize newSize)
  else
    console LKeepingOriginal.

(** "Optimize the image based on its format". *)
Definition optimize_step (imagePath extension : string) : M unit :=
  if Str.includes [".jpg"; ".jpeg"; ".png"; ".gif"; ".svg"] extension then
    originalSize <- statSync_size imagePath ;;
    let plugins := plugins_for extension in
    if (0 <? length plugins)%nat then
      input <- readFileSync imagePath ;;
      optimizedBuffer <- imagemin_buffer input plugins ;;
      commit_step imagePath originalSize optimizedBuffer
    else ret tt
  else ret tt.

(** The body of the [try] block of [processImage]. *)
Definition processImage_body (imagePath : string) : M unit :=
  let extension := Str.toLowerCase (Str.extname imagePath) in
  if negb (Str.includes IMAGE_EXTENSIONS extension) then ret tt
  else
    console (LProcessing imagePath) ;;;
    metadata <- sharp_probe imagePath ;;
    (if js_le (width metadata) MAX_WIDTH
     then console (LWidthOk (width metadata))
     else console (LResizing (width metadata))) ;;;
    resize_step imagePath metadata ;;;
    optimize_step imagePath extension ;;;
    console (LCompleted imagePath).

Definition processImage (imagePath : string) : M unit :=
  try_catch (processImage_body imagePath)
    (fun error => console (LErrorProcessing imagePath (message error))).

End Transformer.

(** ** Discovery by worklist *)

(** [path.join(dir, name)] for the arguments the walk gives it: [dir] is
    ["."] or a path the walk built, [name] is a directory entry (not empty,
    no separator, neither ["."] nor [".."]), so that normalisation only
    removes the leading ["./"]. *)
Definition path_join (dir name : string) : string :=
  if String.eqb dir "." then name else dir +:+ "/" +:+ name.

Definition ENOTDIR (path : string) : Error :=
  mkError ("ENOTDIR: not a directory, scandir '" +:+ path +:+ "'").

(** [fs.readdirSync(dir, { withFileTypes: true })], where the directory is
    given by the node its path denotes. *)
Definition readdirSync (dir : string) (n : Node) : Error + list (string * Node) :=
  match n with
  | Dir entries => inr entries
  | Unlistable e => inl e
  | File | Other => inl (ENOTDIR dir)
  end.

(** [entry.isDirectory()] and [entry.isFile()]. *)
Definition isDirectory (n : Node) : bool :=
  match n with
  | Dir _ | Unlistable _ => true
  | File | Other => false
  end.

Definition isFile (n : Node) : bool :=
  match n with
  | File => true
  | _ => false
  end.

Definition is_image_name (name : string) : bool :=
  Str.includes IMAGE_EXTENSIONS (Str.toLowerCase (Str.extname name)).

(** The [for (const entry of entries)] loop: directories join the queue,
    image files join the result. *)
Fixpoint scan_entries (currentDir : string) (entries : list (string * Node))
    (queue : list (string * Node)) (files : list string)
  : list (string * Node) * list string :=
  match entries with
  | [] => (queue, files)
  | (name, n) :: rest =>
      let fullPath := path_join currentDir name in
      if isDirectory n then
        scan_entries currentDir rest (queue ++ [(fullPath, n)]) files
      else if isFile n then
        if is_image_name name then
          scan_entries currentDir rest queue (files ++ [fullPath])
        else scan_entries currentDir rest queue files
      else scan_entries currentDir rest queue files
  end.

Fixpoint node_weight (n : Node) : nat :=
  match n with
  | Dir entries =>
      S ((fix go (l : list (string * Node)) : nat :=
            match l with
            | [] => 0
            | (_, c) :: l' => node_weight c + go l'
            end) entries)
  | _ => 1
  end.

Definition entries_weight (l : list (string * Node)) : nat :=
  list_sum (map (fun e => node_weight (snd e)) l).

Lemma entries_weight_cons name n l :
  entries_weight ((name, n) :: l) = node_weight n + entries_weight l.
Proof. reflexivity. Qed.

Lemma entries_weight_app l1 l2 :
  entries_weight (l1 ++ l2) = entries_weight l1 + entries_weight l2.
Proof. unfold entries_weight. by rewrite map_app, list_sum_app. Qed.

Lemma node_weight_pos n : 1 <= node_weight n.
Proof. destruct n; simpl; lia. Qed.

Lemma node_weight_Dir entries :
  node_weight (Dir entries) = S (entries_weight entries).
Proof.
  simpl. f_equal. induction entries as [|[name c] l IH]; [done|].
  rewrite entries_weight_cons. by rewrite IH.
Qed.

Lemma scan_entries_weight currentDir entries queue files :
  entries_weight (fst (scan_entries currentDir entries queue files))
  <= entries_weight queue + entries_weight entries.
Proof.
  revert queue files.
  induction entries as [|[name c] entries IH]; intros queue files; simpl.
  - change (entries_weight []) with 0. lia.
  - rewrite entries_weight_cons.
    destruct (isDirectory c).
    + etrans; [apply IH|]. rewrite entries_weight_app, entries_weight_cons.
      change (entries_weight []) with 0. lia.
    + destruct (isFile c); [destruct (is_image_name name)|];
        (etrans; [apply IH|lia]).
Qed.

Definition inspect {A} (a : A) : {b : A | a = b} := exist _ a eq_refl.

(** The [while (queue.length > 0)] loop.  A queue element is a path with
    the node it denotes; [log] collects what the [catch] prints. *)
Equations? walk (queue : list (string * Node)) (files : list string)
    (log : list LogLine) : list string * list LogLine
  by wf (entries_weight queue) lt :=
walk [] files log := (files, log);
walk ((currentDir, n) :: queue) files log with inspect (readdirSync currentDir n) := {
  | exist _ (inr entries) _ :=
      walk (fst (scan_entries currentDir entries queue files))
           (snd (scan_entries currentDir entries queue files)) log;
  | exist _ (inl error) _ :=
      walk queue files (log ++ [LErrorReadingDirectory currentDir (message error)]) }.
Proof.
  - rewrite entries_weight_cons. pose proof (node_weight_pos n). lia.
  - destruct n; simplify_eq/=.
    rewrite entries_weight_cons, node_weight_Dir.
    pose proof (scan_entries_weight currentDir entries queue files). lia.
Qed.

Section Discovery.

Context (E : Env).

Definition getAllFilesIterative (dir : string) : M (list string) := fun d =>
  let r := walk [(dir, root E)] [] [] in
  mkRes (Ret (fst r)) d [] (snd r).

End Discovery.

(** How the process ends: an uncaught rejection ends a
    Node process with status 1, a drained event loop with status 0. *)
Definition exit_code {A} (r : Res A) : Z :=
  match outcome r with
  | Ret _ => 0
  | Throw _ => 1
  | Exit code => code
  end.

(** ** Elapsed time

    [Math.floor((elapsedMs / unit) % modulus)] for an integer [elapsedMs]:
    JavaScript's [%] takes the sign of the dividend, so that the quotient
    [elapsedMs / unit], reduced modulo [modulus], is the remainder of the
    truncated division of [elapsedMs] by [unit * modulus], divided by
    [unit]; [Math.floor] rounds it down.  The floating-point quotient has
    the same integer part as the exact one as long as [elapsedMs] stays
    below 2^50 in absolute value, some 35,000 years. *)
Definition floor_mod (elapsedMs unit modulus : Z) : Z :=
  (Z.rem elapsedMs (unit * modulus) / unit)%Z.

(** [formatElapsedTime(startTime)], where [now] is what [Date.now()]
    returns when the function reads it and [startTime] stands for
    [startTime.getTime()], both in milliseconds.  A template literal prints
    an integer in decimal, with a minus sign when it is negative. *)
Definition formatElapsedTime (now startTime : Z) : string :=
  let elapsedMs := (now - startTime)%Z in
  let seconds := floor_mod elapsedMs 1000 60 in
  let minutes := floor_mod elapsedMs (1000 * 60) 60 in
  let hours := floor_mod elapsedMs (1000 * 60 * 60) 24 in
  let days := (elapsedMs / (1000 * 60 * 60 * 24))%Z in
  let timeString := "" in
  let timeString :=
    if (0 <? days)%Z then timeString +:+ pretty days +:+ "d " else timeString in
  let timeString :=
    if (0 <? hours)%Z || (0 <? days)%Z
    then timeString +:+ pretty hours +:+ "h " else timeString in
  let timeString :=
    if (0 <? minutes)%Z || (0 <? hours)%Z || (0 <? days)%Z
    then timeString +:+ pretty minutes +:+ "m " else timeString in
  timeString +:+ pretty seconds +:+ "s".

(** ** The script with the worklist and the batches *)

Module WorklistScript.

Definition batchSize : nat := 10.

(** [Math.ceil(a / b)] on non-negative integers. *)
Definition ceil_div (a b : nat) : nat := (a + (b - 1)) / b.

(** [Math.round(completed / total * 100) > 0]: the quotient reaches half a
    percent. *)
Definition percent_positive (completed total : nat) : bool :=
  (total <=? 200 * completed)%nat.

Section Orchestrator.

Context (E : Env).

(** "Estimate completion time if we have enough data": the line is printed
    when [msPerImage * remainingImages], the product of the time elapsed per
    file and the number of files left, is positive. *)
Definition estimate (total completed : nat) : M unit :=
  if (10 <? completed)%nat && percent_positive completed total then
    let remainingImages := total - completed in
    if (0 <? elapsed_ms E completed)%N && (0 <? remainingImages)%nat
    then console LEstimatedCompletion
    else ret tt
  else ret tt.

(** One turn of [for (const imagePath of batch)], with its own [try]. *)
Definition process_one (imagePath : string) (total completed : nat) : M nat :=
  try_catch
    (processImage E imagePath ;;;
     let completed := S completed in
     console (LProgressRunning completed total) ;;;
     estimate total completed ;;;
     ret completed)
    (fun error => console (LFailedToProcess imagePath error) ;;; ret completed).

Fixpoint process_batch (batch : list string) (total completed : nat) : M nat :=
  match batch with
  | [] => ret completed
  | imagePath :: rest =>
      c <- process_one imagePath total completed ;;
      process_batch rest total c
  end.

(** [for (let i = 0; i < imageFiles.length; i += batchSize)]; the value is
    the final [completed]. *)
Equations? batches (imageFiles : list string) (i completed : nat) : M nat
  by wf (length imageFiles - i) lt :=
batches imageFiles i completed with lt_dec i (length imageFiles) := {
  | left _ :=
      let batch := take batchSize (drop i imageFiles) in
      console (LBatch (i / batchSize + 1) (ceil_div (length imageFiles) batchSize)) ;;;
      c <- process_batch batch (length imageFiles) completed ;;
      batches imageFiles (i + batchSize) c;
  | right _ := ret completed }.
Proof. unfold batchSize. lia. Qed.

Definition findAndProcessImages : M unit :=
  try_catch
    (console LStarting ;;;
     console LStartTime ;;;
     cwd <- lift_result (process_cwd E) ;;
     console (LCurrentDirectory cwd) ;;;
     imageFiles <- getAllFilesIterative E "." ;;
     console (LFound (length imageFiles)) ;;;
     _ <- batches imageFiles 0 0 ;;
     console LAllProcessed ;;;
     console LTotalTime ;;;
     console LStarted ;;;
     console LFinished)
    (fun error => console (LErrorFindingObject error) ;;; process_exit 1).

(** [findAndProcessImages().catch(error => { ...; process.exit(1) })]. *)
Definition main : M unit :=
  try_catch findAndProcessImages
    (fun error => console (LAnErrorOccurred error) ;;; process_exit 1).

End Orchestrator.

End WorklistScript.

(** ** The script with glob and the plain loop *)

Module GlobScript.

Section Orchestrator.

Context (E : Env).

(** [for (const pattern of imagePatterns)]: every pattern is globbed with
    [{ nocase: true, absolute: true }] and its matches are appended. *)
Fixpoint glob_patterns (imagePatterns : list string) (imageFiles : list string)
  : M (list string) :=
  match imagePatterns with
  | [] => ret imageFiles
  | pattern :: rest =>
      files <- lift_result (glob E pattern) ;;
      glob_patterns rest (imageFiles ++ files)
  end.

(** [for (const imagePath of imageFiles)]. *)
Fixpoint process_all (imageFiles : list string) (total completed : nat) : M nat :=
  match imageFiles with
  | [] => ret completed
  | imagePath :: rest =>
      processImage E imagePath ;;;
      let completed := S completed in
      console (LProgress completed total) ;;;
      process_all rest total completed
  end.

Definition findAndProcessImages : M unit :=
  try_catch
    (let imagePatterns := map (fun ext => "**/*" +:+ ext) IMAGE_EXTENSIONS in
     imageFiles <- glob_patterns imagePatterns [] ;;
     console (LFound (length imageFiles)) ;;;
     _ <- process_all imageFiles (length imageFiles) 0 ;;
     console LAllProcessed)
    (fun error => console (LErrorFinding (message error))).

Definition main : M unit :=
  try_catch findAndProcessImages
    (fun error => console (LAnErrorOccurred error) ;;; process_exit 1).

End Orchestrator.

End GlobScript.

(** ** Reference descriptions of discovery *)

(** A walk of the tree by structural recursion: in every directory that
    lists its entries, the entries picked by [sel] are reported and the
    entries allowed by [desc] are entered; a directory whose listing fails
    contributes nothing, and neither does what lies below it. *)
Fixpoint collect (sel desc : string -> Node -> bool) (dir : string) (n : Node)
  : list string :=
  match n with
  | Dir entries =>
      (fix go (l : list (string * Node)) : list string :=
         match l with
         | [] => []
         | (name, c) :: l' =>
             (if sel name c then [path_join dir name] else [])
             ++ (if desc name c then collect sel desc (path_join dir name) c else [])
             ++ go l'
         end) entries
  | _ => []
  end.

(** The image files of every directory that can be listed. *)
Definition images_under (dir : string) (n : Node) : list string :=
  collect (fun name c => isFile c && is_image_name name) (fun _ _ => true) dir n.

(** The directories met by the walk whose listing throws, each with the
    line printed for it. *)
Fixpoint listing_errors (dir : string) (n : Node) : list LogLine :=
  match n with
  | Dir entries =>
      (fix go (l : list (string * Node)) : list LogLine :=
         match l with
         | [] => []
         | (name, c) :: l' =>
             (if isDirectory c then listing_errors (path_join dir name) c else [])
             ++ go l'
         end) entries
  | Unlistable e => [LErrorReadingDirectory dir (message e)]
  | File | Other => [LErrorReadingDirectory dir (message (ENOTDIR dir))]
  end.

(** *** node-glob

    [glob] is an npm dependency of the first script, not code of the
    repository.  Its behaviour is described here for the patterns the
    script builds, ["**/*" + ext], called through [promisify] under
    [{ nocase: true, absolute: true }] and the defaults [dot: false] and
    [nodir: false]:
    - [*] and [**] never match a name that starts with a dot, and [**]
      does not enter a directory of such a name;
    - the last segment is matched by the regular expression
      [^(?!\.)(?=.)[^/]*?\.ext$] with the flag [i]: a match is any entry,
      file or not, whose name ends with [ext], letter case ignored, and
      does not start with a line terminator, which [(?=.)] refuses;
    - every directory that [**] enters is listed, and the call rejects with
      the error of the first listing that fails: there are no results
      then, not even from the directories that could be listed;
    - the call rejects as well when the working directory is not a
      directory;
    - results are absolute paths.
    The order of the results is not described, nor is the one level of
    symbolic links that [**] looks through, nor which error is reported
    when several listings fail, nor the form of the path in its message. *)

(** A line terminator for the [.] of a regular expression, among the code
    units of this embedding. *)
Definition is_line_terminator (c : ascii) : bool :=
  Ascii.eqb c "010" || Ascii.eqb c "013".

Definition starts_with_line_terminator (s : string) : bool :=
  match s with
  | String c _ => is_line_terminator c
  | EmptyString => false
  end.

Definition glob_name_matches (ext name : string) : bool :=
  negb (Str.starts_with_dot name)
  && negb (starts_with_line_terminator name)
  && Str.ends_with (Str.toLowerCase name) ext.

(** The error of the first directory that [**] has to list and cannot. *)
Fixpoint glob_denied (n : Node) : option Error :=
  match n with
  | Dir entries =>
      (fix go (l : list (string * Node)) : option Error :=
         match l with
         | [] => None
         | (name, c) :: l' =>
             match (if Str.starts_with_dot name then None else glob_denied c) with
             | Some e => Some e
             | None => go l'
             end
         end) entries
  | Unlistable e => Some e
  | File | Other => None
  end.

Definition glob_under (ext : string) (dir : string) (n : Node) : list string :=
  collect (fun name _ => glob_name_matches ext name)
          (fun name _ => negb (Str.starts_with_dot name)) dir n.

(** [path.resolve(cwd, rel)] for an absolute [cwd] and a relative [rel]
    without [.] or [..] segments. *)
Definition resolve (cwd rel : string) : string :=
  if String.eqb cwd "/" then "/" +:+ rel else cwd +:+ "/" +:+ rel.

Definition glob_pattern_ext (pattern : string) : option string :=
  match pattern with
  | String "*" (String "*" (String "/" (String "*" ext))) => Some ext
  | _ => None
  end.

Definition node_glob (cwd : string) (tree : Node) (pattern : string)
  : Error + list string :=
  match glob_pattern_ext pattern with
  | Some ext =>
      match tree with
      | File | Other => inl (mkError ("ENOTDIR invalid cwd " +:+ cwd))
      | Dir _ | Unlistable _ =>
          match glob_denied tree with
          | Some e => inl e
          | None => inr (map (resolve cwd) (glob_under ext "." tree))
          end
      end
  | None => inl (mkError ("pattern outside the model: " +:+ pattern))
  end.

(** Names a directory listing can hold. *)
Definition entry_name (name : string) : bool :=
  negb (String.eqb name "") && forallb (fun c => negb (Str.is_slash c)) (Str.chars name).



(** ** Vocabulary of the statements *)

(** The lowercase extension of a path is one of the six. *)
Definition recognized (p : string) : Prop :=
  Str.toLowerCase (Str.extname p) ∈ IMAGE_EXTENSIONS.

(** The temporary path of the resize step. *)
Definition temp_of (p : string) : string := p +:+ ".temp".

(** Lines printed by [processImage], as opposed to the orchestrators. *)
Definition transformer_line (l : LogLine) : bool :=
  match l with
  | LProcessing _ | LWidthOk _ | LResizing _ | LOptimized _ _
  | LKeepingOriginal | LCompleted _ | LErrorProcessing _ _ => true
  | _ => false
  end.

Definition is_failure_line (l : LogLine) : bool :=
  match l with
  | LErrorProcessing _ _ | LFailedToProcess _ _ => true
  | _ => false
  end.

Definition is_batch_line (l : LogLine) : bool :=
  match l with
  | LBatch _ _ => true
  | _ => false
  end.

(** The counters of a progress line, whichever script printed it. *)
Definition progress_of (l : LogLine) : option (nat * nat) :=
  match l with
  | LProgress c n | LProgressRunning c n => Some (c, n)
  | _ => None
  end.

(** A line without what batching and time reporting add to the log: batch
    headers and estimates go, and a progress line loses its running time. *)
Definition unbatched (l : LogLine) : list LogLine :=
  match l with
  | LBatch _ _ => []
  | LProgressRunning c n => [LProgress c n]
  | LEstimatedCompletion => []
  | _ => [l]
  end.

(** Calls that create, remove or move a file for the resize. *)
Definition is_resize_op (o : Op) : bool :=
  match o with
  | OpToFile _ _ | OpUnlink _ | OpRename _ _ => true
  | _ => false
  end.

Definition is_imagemin_op (o : Op) : bool :=
  match o with
  | OpImagemin _ => true
  | _ => false
  end.

Section Vocabulary.

Context (E : Env).

(** The disk as the conditional commit finds it: after the probe and the
    resize step. *)
Definition before_commit (p : string) : M unit :=
  metadata <- sharp_probe E p ;; resize_step E p metadata.

(** The probe rejects the file. *)
Definition corrupt (d : gmap string content) (p : string) : Prop :=
  exists c e, d !! p = Some c /\ sharp_metadata E c = inl e.

(** The probed width does not call for a resize. *)
Definition within_width (c : content) : Prop :=
  forall md, sharp_metadata E c = inr md -> js_gt (width md) MAX_WIDTH = false.


(** Files one after the other, nothing else: the common core of the two
    orchestrators' loops. *)
Fixpoint run_files (files : list string) : M unit :=
  match files with
  | [] => ret tt
  | p :: rest => processImage E p ;;; run_files rest
  end.

End Vocabulary.


(** A pipeline-level failure as the specification lists them: the working
    directory cannot be read, or the root of the scan cannot be listed. *)
Definition catastrophic (E : Env) : Prop :=
  (exists e, process_cwd E = inl e) \/ (exists e, readdirSync "." (root E) = inl e).

(** "Non-zero exit exactly on a pipeline-level failure." *)
Definition exits_nonzero_iff_catastrophic (E : Env) (d : gmap string content) : Prop :=
  exit_code (WorklistScript.main E d) <> 0%Z <-> catastrophic E.

(** What the two discoveries return, run as the scripts run them. *)
Definition worklist_files (E : Env) : list string :=
  match outcome (getAllFilesIterative E "." ∅) with
  | Ret files => files
  | _ => []
  end.

Definition glob_files (E : Env) : list string :=
  match outcome (GlobScript.glob_patterns E
                   (map (fun ext => "**/*" +:+ ext) IMAGE_EXTENSIONS) [] ∅) with
  | Ret files => files
  | _ => []
  end.

(** "Both strategies yield the same file set", glob's paths being the
    absolute forms of the worklist's. *)
Definition same_file_set (cwd : string) (E : Env) : Prop :=
  forall q, q ∈ glob_files E <-> q ∈ map (resolve cwd) (worklist_files E).

Section Health.

Context (E : Env).


End Health.

(** ** Tools for running the monad *)

(** [emit o l r]: the result [r], after the calls [o] and the lines [l]. *)
Definition emit {A} (o : list Op) (l : list LogLine) (r : Res A) : Res A :=
  mkRes (outcome r) (disk r) (o ++ ops r) (l ++ out r).

(** [m] never ends the process. *)
Definition no_exit {A} (m : M A) : Prop :=
  forall d c, outcome (m d) <> Exit c.

(** [m] leaves every path outside [S] as it found it. *)
Definition confined {A} (S : list string) (m : M A) : Prop :=
  forall d q, q ∉ S -> disk (m d) !! q = d !! q.

Definition width_line (md : Metadata) : LogLine :=
  if js_le (width md) MAX_WIDTH then LWidthOk (width md) else LResizing (width md).

(** Two results with the same disk, the same calls and, read through [g],
    the same lines. *)
Definition same_effects {X A B} (g : LogLine -> list X) (r1 : Res A) (r2 : Res B) : Prop :=
  disk r1 = disk r2 /\ ops r1 = ops r2 /\ flat_map g (out r1) = flat_map g (out r2).

(** What [estimate] prints. *)
Definition estimate_lines (E : Env) (total completed : nat) : list LogLine :=
  out (WorklistScript.estimate E total completed ∅).

(** Reading the lines through a filter. *)
Definition keep (f : LogLine -> bool) (l : LogLine) : list LogLine :=
  if f l then [l] else [].

(** What is below the directories of a queue. *)
Definition images_of_queue (queue : list (string * Node)) : list string :=
  flat_map (fun e => images_under (fst e) (snd e)) queue.

Definition errors_of_queue (queue : list (string * Node)) : list LogLine :=
  flat_map (fun e => listing_errors (fst e) (snd e)) queue.

(** What one pass over the entries of a directory adds to the queue and to
    the result. *)
Definition subdirs (dir : string) (entries : list (string * Node)) : list (string * Node) :=
  flat_map (fun e => if isDirectory (snd e) then [(path_join dir (fst e), snd e)] else [])
           entries.

Definition direct_images (dir : string) (entries : list (string * Node)) : list string :=
  flat_map (fun e => if isFile (snd e) && is_image_name (fst e)
                     then [path_join dir (fst e)] else []) entries.


(** ** Vocabulary of further properties *)

(** Lines [processImage] prints between its first and its last; a line
    that reports a compression is one whose new size is the smaller. *)
Definition body_line (l : LogLine) : Prop :=
  match l with
  | LWidthOk _ | LResizing _ | LKeepingOriginal => True
  | LOptimized originalSize newSize => newSize < originalSize
  | _ => False
  end.

(** The path of the line that ends the report on a file. *)
Definition closing_path (l : LogLine) : option string :=
  match l with
  | LCompleted p | LErrorProcessing p _ => Some p
  | _ => None
  end.

Definition is_estimate_line (l : LogLine) : bool :=
  match l with
  | LEstimatedCompletion => true
  | _ => false
  end.

(** Headers of batches and progress lines. *)
Definition is_pace_line (l : LogLine) : bool :=
  match l with
  | LBatch _ _ | LProgressRunning _ _ => true
  | _ => false
  end.

(** Lines that only the handlers around the per-file [try] and around the
    whole script could print. *)
Definition is_dead_line (l : LogLine) : bool :=
  match l with
  | LFailedToProcess _ _ | LAnErrorOccurred _ => true
  | _ => false
  end.

(** What the batch of index [k], counted from 0, adds to the pace of a run
    over [n] files: its header and the progress lines of its files. *)
Definition pace_of_batch (n k : nat) : list LogLine :=
  LBatch (k + 1) (WorklistScript.ceil_div n WorklistScript.batchSize)
  :: map (fun j => LProgressRunning (j + 1) n) (seq (10 * k) (min 10 (n - 10 * k))).

(** Names [readdirSync] can return: not empty, without separator, and
    neither ["."] nor [".."]. *)
Definition listed_name (name : string) : bool :=
  entry_name name && negb (String.eqb name ".") && negb (String.eqb name "..").

(** Trees a file system can hold: every name is one a listing can return,
    and no directory holds two entries of the same name. *)
Fixpoint sound_tree (n : Node) : bool :=
  match n with
  | Dir entries =>
      (fix go (l : list (string * Node)) : bool :=
         match l with
         | [] => true
         | (name, c) :: l' =>
             listed_name name
             && negb (Str.includes (map fst l') name)
             && sound_tree c
             && go l'
         end) entries
  | _ => true
  end.

(** [p] is [base] or lies below it. *)
Definition below (base p : string) : Prop :=
  exists tail, Str.chars p = Str.chars base ++ tail
               /\ (tail = [] \/ exists rest, tail = "/"%char :: rest).

(** ** A small world for examples

    The first byte of a file stands for its width in hundreds of pixels;
    the resizer rewrites it, every compressor removes the second byte as long
    as there is one. *)

Definition demo_probe (c : content) : Error + Metadata :=
  match c with
  | [] => inl (mkError "Input buffer is empty")
  | b :: _ => inr (mkMetadata (Some (100 * Byte.to_N b)%N))
  end.

Definition demo_resize (c : content) (w : N) : ToFile :=
  match Byte.of_N (w / 100)%N with
  | Some b => Written (b :: tl c)
  | None => WriteFailed None (mkError "width out of range")
  end.

Definition demo_disk_full (c : content) (w : N) : ToFile :=
  WriteFailed (Some [x00]) (mkError "ENOSPC: no space left on device, write").

Definition demo_plugin (_ : Plugin) (c : content) : Error + content :=
  match c with
  | b :: _ :: rest => inr (b :: rest)
  | _ => inr c
  end.


Definition demo_cwd : string := "/srv/uploads".

Definition demo_env (resize : content -> N -> ToFile)
    (plugin : Plugin -> content -> Error + content) (tree : Node) : Env :=
  mkEnv demo_probe resize plugin tree (inr demo_cwd) (node_glob demo_cwd tree)
        (fun n => 40 * N.of_nat n)%N.

Definition demo_tree : Node :=
  Dir [("photo.jpg", File); ("icon.png", File); ("broken.jpg", File);
       ("notes.txt", File);
       ("2020", Dir [("banner.webp", File); ("Scan.JPEG", File)]);
       ("private", Unlistable (mkError "EACCES: permission denied, scandir 'private'"))].

Definition demo_disk : gmap string content :=
  list_to_map
    [("photo.jpg", [x28; x01; x02; x03; x04]);
     ("icon.png", [x01; x02]);
     ("broken.jpg", []);
     ("notes.txt", [x68; x69]);
     ("2020/banner.webp", [x08; x01; x02; x03]);
     ("2020/Scan.JPEG", [x0a; x01])].

Definition demo : Env := demo_env demo_resize demo_plugin demo_tree.


Definition calm_disk : gmap string content :=
  list_to_map [("photo.jpg", [x19; x02; x03]); ("icon.png", [x01])].


(** The tree of the example without the directory that cannot be listed. *)
Definition listable_tree : Node :=
  Dir [("photo.jpg", File); ("icon.png", File); ("broken.jpg", File);
       ("notes.txt", File);
       ("2020", Dir [("banner.webp", File); ("Scan.JPEG", File)])].

Definition listable : Env := demo_env demo_resize demo_plugin listable_tree.

(** A root that cannot be listed. *)
Definition locked_tree : Node :=
  Unlistable (mkError "EACCES: permission denied, scandir '.'").

Definition locked : Env := demo_env demo_resize demo_plugin locked_tree.


(** A world whose compressors fail on every input. *)
Definition demo_plugin_crash (_ : Plugin) (_ : content) : Error + content :=
  inl (mkError "Command failed with exit code 1").

Definition crashing : Env := demo_env demo_resize demo_plugin_crash demo_tree.

(** A world whose probe reads no width. *)
Definition blind : Env :=
  mkEnv (fun _ => inr (mkMetadata None)) demo_resize demo_plugin demo_tree
        (inr demo_cwd) (node_glob demo_cwd demo_tree) (fun n => 40 * N.of_nat n)%N.

(** A world where two of the six glob calls throw, the third and the
    last, each with an error of its own. *)
Definition demo_glob_choked (pattern : string) : Error + list string :=
  if String.eqb pattern "**/*.png"
  then inl (mkError "EMFILE: too many open files, scandir '/srv/uploads'")
  else if String.eqb pattern "**/*.svg"
  then inl (mkError "EIO: i/o error, scandir '/srv/uploads/2020'")
  else node_glob demo_cwd listable_tree pattern.

Definition choked : Env :=
  mkEnv demo_probe demo_resize demo_plugin listable_tree (inr demo_cwd)
        demo_glob_choked (fun n => 40 * N.of_nat n)%N.

(** * Properties *)

Create HintDb js discriminated.

(** ** Strings and paths *)

Example extname_plain : Str.extname "uploads/2020/photo.JPG" = ".JPG".
Proof. reflexivity. Qed.
Example extname_hidden : Str.extname "uploads/.jpg" = "".
Proof. reflexivity. Qed.
Example extname_two_dots : Str.extname "a/.." = "".
Proof. reflexivity. Qed.
Example extname_last_dot : Str.extname "archive.tar.gz" = ".gz".
Proof. reflexivity. Qed.
Example extname_trailing_dot : Str.extname "name." = ".".
Proof. reflexivity. Qed.
Example extname_temp : Str.extname "a.jpg.temp" = ".temp".
Proof. reflexivity. Qed.
Example lower_mixed : Str.toLowerCase ".JpEg" = ".jpeg".
Proof. reflexivity. Qed.

Lemma includes_elem_of l s : Str.includes l s = true <-> s ∈ l.
Proof.
  unfold Str.includes. rewrite existsb_exists. split.
  - intros (x & Hx & Heq). apply String.eqb_eq in Heq. subst. by apply list_elem_of_In.
  - intros H. exists s. split; [by apply list_elem_of_In|apply String.eqb_refl].
Qed.

Lemma includes_false l s : Str.includes l s = false <-> s ∉ l.
Proof.
  rewrite <- includes_elem_of. destruct (Str.includes l s); split; congruence.
Qed.

Lemma chars_app a b : Str.chars (a +:+ b) = Str.chars a ++ Str.chars b.
Proof.
  unfold Str.chars. induction a as [|x a IH]; [done|].
  change (String x a +:+ b) with (String x (a +:+ b)).
  simpl. by rewrite IH.
Qed.

Lemma temp_of_neq p : temp_of p <> p.
Proof.
  unfold temp_of. intros H. apply (f_equal Str.chars) in H.
  rewrite chars_app in H. apply (f_equal length) in H.
  rewrite length_app in H. simpl in H. lia.
Qed.

Lemma extname_temp_of q :
  Str.extname (temp_of q) = "" \/ Str.extname (temp_of q) = ".temp".
Proof.
  unfold Str.extname, Str.extname_chars, Str.rev_basename, temp_of.
  rewrite chars_app, rev_app_distr.
  change (rev (Str.chars ".temp")) with ["p"; "m"; "e"; "t"; "."]%char.
  cbn [app Str.drop_while Str.take_while Str.is_slash Ascii.eqb Bool.eqb negb
       Str.split_dot Str.is_dot].
  destruct (Str.take_while _ _); [left|right]; reflexivity.
Qed.

Lemma temp_of_not_recognized q : ~ recognized (temp_of q).
Proof.
  unfold recognized. intros H. apply includes_elem_of in H.
  destruct (extname_temp_of q) as [Hq|Hq]; rewrite Hq in H; discriminate H.
Qed.

(** ** Running the monad *)


Lemma emit_mkRes {A} o l (x : Outcome A) d o' l' :
  emit o l (mkRes x d o' l') = mkRes x d (o ++ o') (l ++ l').
Proof. reflexivity. Qed.

Lemma emit_nil {A} (r : Res A) : emit [] [] r = r.
Proof. by destruct r. Qed.

Lemma emit_emit {A} o1 l1 o2 l2 (r : Res A) :
  emit o1 l1 (emit o2 l2 r) = emit (o1 ++ o2) (l1 ++ l2) r.
Proof. unfold emit. simpl. by rewrite !app_assoc. Qed.

Lemma bind_of_Ret {A B} (m : M A) (k : A -> M B) d a d' o l :
  m d = mkRes (Ret a) d' o l -> bind m k d = emit o l (k a d').
Proof. intros H. unfold bind. rewrite H. reflexivity. Qed.

Lemma bind_of_Throw {A B} (m : M A) (k : A -> M B) d e d' o l :
  m d = mkRes (Throw e) d' o l -> bind m k d = mkRes (Throw e) d' o l.
Proof. intros H. unfold bind. rewrite H. reflexivity. Qed.

Lemma bind_of_Exit {A B} (m : M A) (k : A -> M B) d c d' o l :
  m d = mkRes (Exit c) d' o l -> bind m k d = mkRes (Exit c) d' o l.
Proof. intros H. unfold bind. rewrite H. reflexivity. Qed.

Lemma bind_call {B} o (k : unit -> M B) d : bind (call o) k d = emit [o] [] (k tt d).
Proof. reflexivity. Qed.

Lemma bind_console {B} l (k : unit -> M B) d :
  bind (console l) k d = emit [] [l] (k tt d).
Proof. reflexivity. Qed.

Lemma bind_get_disk {B} (k : gmap string content -> M B) d :
  bind get_disk k d = k d d.
Proof. rewrite (bind_of_Ret _ _ _ d d [] []) by reflexivity. apply emit_nil. Qed.

Lemma bind_put_disk {B} d' (k : unit -> M B) d : bind (put_disk d') k d = k tt d'.
Proof. rewrite (bind_of_Ret _ _ _ tt d' [] []) by reflexivity. apply emit_nil. Qed.

Lemma bind_ret {A B} (a : A) (k : A -> M B) d : bind (ret a) k d = k a d.
Proof. rewrite (bind_of_Ret _ _ _ a d [] []) by reflexivity. apply emit_nil. Qed.

Lemma bind_throw {A B} e (k : A -> M B) d : bind (throw e) k d = throw e d.
Proof. reflexivity. Qed.

Lemma bind_assoc {A B C} (m : M A) (f : A -> M B) (g : B -> M C) d :
  bind (bind m f) g d = bind m (fun x => bind (f x) g) d.
Proof.
  unfold bind. destruct (m d) as [[a|e|c] d1 o1 l1]; simpl; [|done..].
  destruct (f a d1) as [[b|e|c] d2 o2 l2]; simpl; [|done..].
  by rewrite !app_assoc.
Qed.

Lemma try_catch_of_Ret {A} (m : M A) h d a d' o l :
  m d = mkRes (Ret a) d' o l -> try_catch m h d = mkRes (Ret a) d' o l.
Proof. intros H. unfold try_catch. rewrite H. reflexivity. Qed.

Lemma try_catch_of_Throw {A} (m : M A) h d e d' o l :
  m d = mkRes (Throw e) d' o l -> try_catch m h d = emit o l (h e d').
Proof. intros H. unfold try_catch. rewrite H. reflexivity. Qed.

Lemma try_catch_of_Exit {A} (m : M A) h d c d' o l :
  m d = mkRes (Exit c) d' o l -> try_catch m h d = mkRes (Exit c) d' o l.
Proof. intros H. unfold try_catch. rewrite H. reflexivity. Qed.

(** Evaluates the primitives at the head of a computation. *)
Ltac mstep :=
  first
    [ rewrite bind_assoc
    | rewrite bind_call
    | rewrite bind_console
    | rewrite bind_get_disk
    | rewrite bind_put_disk
    | rewrite bind_ret
    | rewrite bind_throw
    | rewrite emit_emit
    | rewrite emit_mkRes ];
  cbv beta.

Ltac mrun := repeat mstep; cbn [app].

Ltac mdone :=
  unfold emit; cbn [outcome disk ops out console ret throw app];
  rewrite ?app_nil_r; try reflexivity.

(** ** Two properties that compose along [bind] *)




Lemma no_exit_ret {A} (a : A) : no_exit (ret a).
Proof. by intros d c. Qed.
Lemma no_exit_throw {A} e : no_exit (@throw A e).
Proof. by intros d c. Qed.
Lemma no_exit_console l : no_exit (console l).
Proof. by intros d c. Qed.
Lemma no_exit_call o : no_exit (call o).
Proof. by intros d c. Qed.
Lemma no_exit_get_disk : no_exit get_disk.
Proof. by intros d c. Qed.
Lemma no_exit_put_disk d' : no_exit (put_disk d').
Proof. by intros d c. Qed.
Lemma no_exit_lift_result {A} (r : Error + A) : no_exit (lift_result r).
Proof. by destruct r; intros d c. Qed.
Lemma no_exit_bind {A B} (m : M A) (k : A -> M B) :
  no_exit m -> (forall a, no_exit (k a)) -> no_exit (bind m k).
Proof.
  intros Hm Hk d c. unfold bind. specialize (Hm d).
  destruct (m d) as [[a|e|c'] d1 o1 l1]; simpl in *; [apply Hk|done|].
  by destruct (Hm c').
Qed.
Lemma no_exit_try_catch {A} (m : M A) h :
  no_exit m -> (forall e, no_exit (h e)) -> no_exit (try_catch m h).
Proof.
  intros Hm Hh d c. unfold try_catch. specialize (Hm d).
  destruct (m d) as [[a|e|c'] d1 o1 l1]; simpl in *; [done|apply Hh|].
  by destruct (Hm c').
Qed.
Lemma no_exit_if {A} (b : bool) (m1 m2 : M A) :
  no_exit m1 -> no_exit m2 -> no_exit (if b then m1 else m2).
Proof. by destruct b. Qed.

#[local] Hint Resolve no_exit_ret no_exit_throw no_exit_console no_exit_call
  no_exit_get_disk no_exit_put_disk no_exit_lift_result no_exit_bind
  no_exit_try_catch no_exit_if : js.

Lemma confined_ret {A} S (a : A) : confined S (ret a).
Proof. by intros d q. Qed.
Lemma confined_throw {A} S e : confined S (@throw A e).
Proof. by intros d q. Qed.
Lemma confined_console S l : confined S (console l).
Proof. by intros d q. Qed.
Lemma confined_call S o : confined S (call o).
Proof. by intros d q. Qed.
Lemma confined_lift_result {A} S (r : Error + A) : confined S (lift_result r).
Proof. by destruct r; intros d q. Qed.
Lemma confined_bind {A B} S (m : M A) (k : A -> M B) :
  confined S m -> (forall a, confined S (k a)) -> confined S (bind m k).
Proof.
  intros Hm Hk d q Hq. unfold bind. specialize (Hm d q Hq).
  destruct (m d) as [[a|e|c'] d1 o1 l1]; simpl in *; [|done..].
  by rewrite (Hk a d1 q Hq).
Qed.
Lemma confined_try_catch {A} S (m : M A) h :
  confined S m -> (forall e, confined S (h e)) -> confined S (try_catch m h).
Proof.
  intros Hm Hh d q Hq. unfold try_catch. specialize (Hm d q Hq).
  destruct (m d) as [[a|e|c'] d1 o1 l1]; simpl in *; [done| |done].
  by rewrite (Hh e d1 q Hq).
Qed.
Lemma confined_if {A} S (b : bool) (m1 m2 : M A) :
  confined S m1 -> confined S m2 -> confined S (if b then m1 else m2).
Proof. by destruct b. Qed.
Lemma confined_mono {A} S S' (m : M A) :
  S ⊆ S' -> confined S m -> confined S' m.
Proof. intros Hsub Hm d q Hq. apply Hm. intros ?. by apply Hq, Hsub. Qed.

#[local] Hint Resolve confined_ret confined_throw confined_console confined_call
  confined_lift_result confined_bind confined_try_catch confined_if : js.

(** ** The steps of the transformer *)

Section TransformerFacts.

Context (E : Env).

Lemma sharp_probe_run p d :
  sharp_probe E p d =
  match d !! p with
  | None => mkRes (Throw (mkError ("Input file is missing: " +:+ p))) d [OpMetadata p] []
  | Some c =>
      match sharp_metadata E c with
      | inl e => mkRes (Throw e) d [OpMetadata p] []
      | inr md => mkRes (Ret md) d [OpMetadata p] []
      end
  end.
Proof.
  unfold sharp_probe. mrun.
  destruct (d !! p) as [c|]; [|done]. by destruct (sharp_metadata E c).
Qed.

Lemma resize_step_written p md c data d :
  js_gt (width md) MAX_WIDTH = true -> d !! p = Some c ->
  sharp_resize E c MAX_WIDTH = Written data ->
  resize_step E p md d =
  mkRes (Ret tt) (<[p := data]> (delete (temp_of p) (delete p (<[temp_of p := data]> d))))
        [OpToFile p (temp_of p); OpUnlink p; OpRename (temp_of p) p] [].
Proof.
  intros Hw Hd Hr. unfold resize_step. rewrite Hw. fold (temp_of p).
  unfold sharp_toFile. mrun. rewrite Hd, Hr. mrun.
  unfold unlinkSync. mrun.
  rewrite lookup_insert_ne by apply temp_of_neq. rewrite Hd. mrun.
  unfold renameSync. mrun.
  rewrite lookup_delete_ne by (apply not_eq_sym, temp_of_neq).
  rewrite lookup_insert_eq. reflexivity. 
Qed.

Lemma resize_step_failed p md c partial e d :
  js_gt (width md) MAX_WIDTH = true -> d !! p = Some c ->
  sharp_resize E c MAX_WIDTH = WriteFailed partial e ->
  resize_step E p md d =
  mkRes (Throw e)
        (match partial with Some data => <[temp_of p := data]> d | None => d end)
        [OpToFile p (temp_of p)] [].
Proof.
  intros Hw Hd Hr. unfold resize_step. rewrite Hw. fold (temp_of p).
  unfold sharp_toFile. mrun. rewrite Hd, Hr. destruct partial; mrun; reflexivity.
Qed.

Lemma resize_step_skip p md d :
  js_gt (width md) MAX_WIDTH = false ->
  resize_step E p md d = mkRes (Ret tt) d [] [].
Proof. intros Hw. unfold resize_step. by rewrite Hw. Qed.

Lemma optimize_step_run p extension c d :
  d !! p = Some c ->
  optimize_step E p extension d =
  if Str.includes [".jpg"; ".jpeg"; ".png"; ".gif"; ".svg"] extension then
    if (0 <? length (plugins_for extension))%nat then
      match run_plugins E (plugins_for extension) c with
      | inl e =>
          mkRes (Throw e) d
            [OpStat p; OpReadFile p; OpImagemin (plugins_for extension)] []
      | inr buf =>
          if (length buf <? length c)%nat then
            mkRes (Ret tt) (<[p := buf]> d)
              [OpStat p; OpReadFile p; OpImagemin (plugins_for extension);
               OpWriteFile p; OpStat p]
              [LOptimized (length c) (length buf)]
          else
            mkRes (Ret tt) d
              [OpStat p; OpReadFile p; OpImagemin (plugins_for extension)]
              [LKeepingOriginal]
      end
    else mkRes (Ret tt) d [OpStat p] []
  else mkRes (Ret tt) d [] [].
Proof.
  intros Hd. unfold optimize_step.
  destruct (Str.includes _ extension); [|done].
  unfold statSync_size at 1. mrun. rewrite Hd. mrun.
  destruct (0 <? length (plugins_for extension))%nat; [|done].
  unfold readFileSync, imagemin_buffer. mrun. rewrite Hd. mrun.
  destruct (run_plugins E (plugins_for extension) c) as [e|buf];
    cbn [lift_result]; mrun; [done|].
  unfold commit_step.
  destruct (length buf <? length c)%nat; [|done].
  unfold writeFileSync, statSync_size. mrun.
  rewrite lookup_insert_eq. mrun. done.
Qed.


Lemma processImage_probe_fails p e d :
  recognized p ->
  sharp_probe E p d = mkRes (Throw e) d [OpMetadata p] [] ->
  processImage E p d =
  mkRes (Ret tt) d [OpMetadata p] [LProcessing p; LErrorProcessing p (message e)].
Proof.
  intros Hrec Hp. apply includes_elem_of in Hrec.
  assert (Hbody : processImage_body E p d =
                  mkRes (Throw e) d [OpMetadata p] [LProcessing p]).
  { unfold processImage_body. rewrite Hrec. cbn [negb]. mrun.
    erewrite bind_of_Throw by exact Hp. reflexivity. }
  unfold processImage. rewrite (try_catch_of_Throw _ _ _ _ _ _ _ Hbody). mdone.
Qed.

Lemma body_after_probe p c md d :
  recognized p -> d !! p = Some c -> sharp_metadata E c = inr md ->
  processImage_body E p d =
  emit [OpMetadata p] [LProcessing p; width_line md]
    (bind (resize_step E p md)
       (fun _ => bind (optimize_step E p (Str.toLowerCase (Str.extname p)))
                   (fun _ => console (LCompleted p))) d).
Proof.
  intros Hrec Hd Hmd. apply includes_elem_of in Hrec.
  unfold processImage_body. rewrite Hrec. cbn [negb]. mrun.
  erewrite bind_of_Ret by (rewrite sharp_probe_run, Hd, Hmd; reflexivity).
  mrun. unfold width_line. destruct (js_le (width md) MAX_WIDTH); mrun; reflexivity.
Qed.

Lemma processImage_resize_fails p c md e d1 o1 d :
  recognized p -> d !! p = Some c -> sharp_metadata E c = inr md ->
  resize_step E p md d = mkRes (Throw e) d1 o1 [] ->
  processImage E p d =
  mkRes (Ret tt) d1 (OpMetadata p :: o1)
    [LProcessing p; width_line md; LErrorProcessing p (message e)].
Proof.
  intros Hrec Hd Hmd Hr.
  assert (Hbody : processImage_body E p d =
                  mkRes (Throw e) d1 (OpMetadata p :: o1)
                    [LProcessing p; width_line md]).
  { rewrite (body_after_probe p c md) by done.
    erewrite bind_of_Throw by exact Hr. mdone. }
  unfold processImage. rewrite (try_catch_of_Throw _ _ _ _ _ _ _ Hbody). mdone.
Qed.

Lemma processImage_optimize_done p c md d1 o1 d2 o2 l2 d :
  recognized p -> d !! p = Some c -> sharp_metadata E c = inr md ->
  resize_step E p md d = mkRes (Ret tt) d1 o1 [] ->
  optimize_step E p (Str.toLowerCase (Str.extname p)) d1 = mkRes (Ret tt) d2 o2 l2 ->
  processImage E p d =
  mkRes (Ret tt) d2 (OpMetadata p :: o1 ++ o2)
    (LProcessing p :: width_line md :: l2 ++ [LCompleted p]).
Proof.
  intros Hrec Hd Hmd Hr Ho.
  assert (Hbody : processImage_body E p d =
                  mkRes (Ret tt) d2 (OpMetadata p :: o1 ++ o2)
                    (LProcessing p :: width_line md :: l2 ++ [LCompleted p])).
  { rewrite (body_after_probe p c md) by done.
    erewrite bind_of_Ret by exact Hr.
    erewrite bind_of_Ret by exact Ho. mdone. }
  unfold processImage. by rewrite (try_catch_of_Ret _ _ _ _ _ _ _ Hbody).
Qed.

Lemma processImage_optimize_fails p c md d1 o1 e d2 o2 l2 d :
  recognized p -> d !! p = Some c -> sharp_metadata E c = inr md ->
  resize_step E p md d = mkRes (Ret tt) d1 o1 [] ->
  optimize_step E p (Str.toLowerCase (Str.extname p)) d1 = mkRes (Throw e) d2 o2 l2 ->
  processImage E p d =
  mkRes (Ret tt) d2 (OpMetadata p :: o1 ++ o2)
    (LProcessing p :: width_line md :: l2 ++ [LErrorProcessing p (message e)]).
Proof.
  intros Hrec Hd Hmd Hr Ho.
  assert (Hbody : processImage_body E p d =
                  mkRes (Throw e) d2 (OpMetadata p :: o1 ++ o2)
                    (LProcessing p :: width_line md :: l2)).
  { rewrite (body_after_probe p c md) by done.
    erewrite bind_of_Ret by exact Hr.
    erewrite bind_of_Throw by exact Ho. mdone. }
  unfold processImage. rewrite (try_catch_of_Throw _ _ _ _ _ _ _ Hbody). mdone.
Qed.

(** The reads. *)
Lemma confined_read {A} S (k : gmap string content -> M A) :
  (forall d, confined S (k d)) -> confined S (bind get_disk k).
Proof. intros Hk d q Hq. rewrite bind_get_disk. by apply Hk. Qed.

Lemma confined_sharp_probe S p : confined S (sharp_probe E p).
Proof.
  unfold sharp_probe. apply confined_bind; [auto with js|intros _].
  apply confined_read. intros d. destruct (d !! p); auto with js.
Qed.

Lemma confined_statSync_size S p : confined S (statSync_size p).
Proof.
  unfold statSync_size. apply confined_bind; [auto with js|intros _].
  apply confined_read. intros d. destruct (d !! p); auto with js.
Qed.

Lemma confined_readFileSync S p : confined S (readFileSync p).
Proof.
  unfold readFileSync. apply confined_bind; [auto with js|intros _].
  apply confined_read. intros d. destruct (d !! p); auto with js.
Qed.

Lemma confined_imagemin_buffer S input plugins :
  confined S (imagemin_buffer E input plugins).
Proof. unfold imagemin_buffer. auto with js. Qed.

(** The writes. *)
Lemma confined_sharp_toFile S src w dst :
  dst ∈ S -> confined S (sharp_toFile E src w dst).
Proof.
  intros Hin d q Hq. unfold sharp_toFile. mrun.
  assert (dst <> q) by (intros ->; done).
  destruct (d !! src) as [c|]; [|done].
  destruct (sharp_resize E c w) as [data|[data|] e]; mrun; cbn [disk emit put_disk throw ret];
    rewrite ?lookup_insert_ne by done; done.
Qed.

Lemma confined_unlinkSync S p : p ∈ S -> confined S (unlinkSync p).
Proof.
  intros Hin d q Hq. unfold unlinkSync. mrun.
  assert (p <> q) by (intros ->; done).
  destruct (d !! p) as [c|]; mrun; cbn [disk emit put_disk throw ret];
    rewrite ?lookup_delete_ne by done; done.
Qed.

Lemma confined_renameSync S src dst :
  src ∈ S -> dst ∈ S -> confined S (renameSync src dst).
Proof.
  intros Hs Hd d q Hq. unfold renameSync. mrun.
  assert (src <> q) by (intros ->; done).
  assert (dst <> q) by (intros ->; done).
  destruct (d !! src) as [c|]; mrun; cbn [disk emit put_disk throw ret];
    rewrite ?lookup_insert_ne, ?lookup_delete_ne by done; done.
Qed.

Lemma confined_writeFileSync S p data : p ∈ S -> confined S (writeFileSync p data).
Proof.
  intros Hin d q Hq. unfold writeFileSync. mrun.
  assert (p <> q) by (intros ->; done).
  cbn [disk emit put_disk throw ret]. by rewrite lookup_insert_ne.
Qed.

Ltac confine :=
  repeat first
    [ apply confined_sharp_probe | apply confined_statSync_size
    | apply confined_readFileSync | apply confined_imagemin_buffer
    | apply confined_sharp_toFile; assumption
    | apply confined_unlinkSync; assumption
    | apply confined_renameSync; assumption
    | apply confined_writeFileSync; assumption
    | apply confined_ret | apply confined_console
    | apply confined_try_catch | apply confined_bind | apply confined_if
    | match goal with |- forall _, _ => intro end ].

Lemma confined_processImage p : confined [p; temp_of p] (processImage E p).
Proof.
  assert (Hp : p ∈ [p; temp_of p]) by constructor.
  assert (Ht : temp_of p ∈ [p; temp_of p]) by (do 2 constructor).
  unfold processImage, processImage_body, resize_step, optimize_step, commit_step.
  fold (temp_of p). confine.
Qed.

Ltac never_exits :=
  repeat first
    [ apply no_exit_ret | apply no_exit_throw | apply no_exit_console
    | apply no_exit_call | apply no_exit_get_disk | apply no_exit_put_disk
    | apply no_exit_lift_result | apply no_exit_bind | apply no_exit_try_catch
    | apply no_exit_if
    | match goal with
      | |- forall _, _ => intro
      | |- no_exit (match ?x with _ => _ end) => destruct x
      end ].

Lemma no_exit_processImage_body p : no_exit (processImage_body E p).
Proof.
  unfold processImage_body, resize_step, optimize_step, commit_step. never_exits.
Qed.

(** The [catch] of [processImage] lets nothing through. *)
Lemma processImage_returns p d : outcome (processImage E p d) = Ret tt.
Proof.
  unfold processImage, try_catch.
  pose proof (no_exit_processImage_body p d) as Hne.
  destruct (processImage_body E p d) as [[[]|e|c] d1 o1 l1]; simpl in *;
    [done..|]. by destruct (Hne c).
Qed.


(** ** The loops *)

Lemma bind_of_outcome_Ret {A B} (m : M A) (k : A -> M B) d a :
  outcome (m d) = Ret a ->
  bind m k d = emit (ops (m d)) (out (m d)) (k a (disk (m d))).
Proof. intros H. unfold bind. rewrite H. reflexivity. Qed.

Lemma run_files_cons p rest d :
  run_files E (p :: rest) d =
  emit (ops (processImage E p d)) (out (processImage E p d))
    (run_files E rest (disk (processImage E p d))).
Proof.
  cbn [run_files].
  by rewrite (bind_of_outcome_Ret _ _ _ tt) by apply processImage_returns.
Qed.

Lemma run_files_returns files d : outcome (run_files E files d) = Ret tt.
Proof.
  revert d. induction files as [|p rest IH]; intros d; [done|].
  rewrite run_files_cons. cbn [emit outcome]. apply IH.
Qed.

Lemma run_files_app a b d :
  run_files E (a ++ b) d =
  emit (ops (run_files E a d)) (out (run_files E a d))
    (run_files E b (disk (run_files E a d))).
Proof.
  revert d. induction a as [|p a IH]; intros d.
  - cbn [app run_files ret ops out disk]. by rewrite emit_nil.
  - rewrite <- app_comm_cons, !run_files_cons, IH, emit_emit. reflexivity.
Qed.

Lemma estimate_run total c d :
  WorklistScript.estimate E total c d = mkRes (Ret tt) d [] (estimate_lines E total c).
Proof.
  unfold estimate_lines, WorklistScript.estimate.
  destruct (_ && _); [|done]. by destruct (_ && _).
Qed.

Lemma estimate_lines_erased {X} (g : LogLine -> list X) total c :
  g LEstimatedCompletion = [] -> flat_map g (estimate_lines E total c) = [].
Proof.
  intros Hg. unfold estimate_lines, WorklistScript.estimate.
  destruct (_ && _); [|done]. destruct (_ && _); [|done].
  cbn [console out flat_map]. by rewrite Hg.
Qed.

Lemma process_one_run p total c d :
  WorklistScript.process_one E p total c d =
  mkRes (Ret (S c)) (disk (processImage E p d)) (ops (processImage E p d))
    (out (processImage E p d)
     ++ LProgressRunning (S c) total :: estimate_lines E total (S c)).
Proof.
  unfold WorklistScript.process_one.
  erewrite try_catch_of_Ret; [reflexivity|].
  rewrite (bind_of_outcome_Ret _ _ _ tt) by apply processImage_returns.
  mrun. erewrite bind_of_Ret by apply estimate_run. mrun. mdone.
  by rewrite <- app_assoc.
Qed.

Lemma process_batch_cons p rest total c d :
  WorklistScript.process_batch E (p :: rest) total c d =
  emit (ops (processImage E p d))
    (out (processImage E p d)
     ++ LProgressRunning (S c) total :: estimate_lines E total (S c))
    (WorklistScript.process_batch E rest total (S c) (disk (processImage E p d))).
Proof.
  cbn [WorklistScript.process_batch].
  erewrite bind_of_Ret by apply process_one_run. reflexivity.
Qed.

Lemma process_all_cons p rest total c d :
  GlobScript.process_all E (p :: rest) total c d =
  emit (ops (processImage E p d))
    (out (processImage E p d) ++ [LProgress (S c) total])
    (GlobScript.process_all E rest total (S c) (disk (processImage E p d))).
Proof.
  cbn [GlobScript.process_all].
  rewrite (bind_of_outcome_Ret _ _ _ tt) by apply processImage_returns.
  mrun. by rewrite app_nil_r.
Qed.


Lemma flat_map_keep f l : flat_map (keep f) l = List.filter f l.
Proof.
  induction l as [|x l IH]; [done|]. cbn [flat_map List.filter]. unfold keep at 1.
  rewrite IH. by destruct (f x).
Qed.

Lemma same_effects_emit {X A B} (g : LogLine -> list X) o l1 l2
    (r1 : Res A) (r2 : Res B) :
  flat_map g l1 = flat_map g l2 -> same_effects g r1 r2 ->
  same_effects g (emit o l1 r1) (emit o l2 r2).
Proof.
  intros Hl (Hd & Ho & Hf). unfold same_effects, emit. cbn [disk ops out].
  rewrite !flat_map_app. by rewrite Hd, Ho, Hf, Hl.
Qed.

Lemma same_effects_trans {X A B C} (g : LogLine -> list X)
    (r1 : Res A) (r2 : Res B) (r3 : Res C) :
  same_effects g r1 r2 -> same_effects g r2 r3 -> same_effects g r1 r3.
Proof.
  intros (H1 & H2 & H3) (H4 & H5 & H6). unfold same_effects.
  by rewrite H1, H2, H3.
Qed.

(** The loop of one batch against the plain loop: the progress lines only. *)
Lemma process_batch_vs_all {X} (g : LogLine -> list X) batch total c d :
  (forall a b, g (LProgressRunning a b) = g (LProgress a b)) ->
  g LEstimatedCompletion = [] ->
  outcome (WorklistScript.process_batch E batch total c d) = Ret (c + length batch)
  /\ same_effects g (WorklistScript.process_batch E batch total c d)
                    (GlobScript.process_all E batch total c d).
Proof.
  intros Hg Hest. revert c d. induction batch as [|p rest IH]; intros c d.
  - cbn [WorklistScript.process_batch GlobScript.process_all length ret outcome].
    split; [f_equal; lia|done].
  - rewrite process_batch_cons, process_all_cons.
    destruct (IH (S c) (disk (processImage E p d))) as [Ho He]. split.
    + cbn [emit outcome]. rewrite Ho. f_equal. simpl. lia.
    + apply same_effects_emit; [|done].
      rewrite !flat_map_app. cbn [flat_map].
      by rewrite Hg, estimate_lines_erased.
Qed.

(** The plain loop against the bare sequence of files. *)
Lemma process_all_effects {X} (g : LogLine -> list X) files total c d :
  (forall a b, g (LProgress a b) = []) ->
  outcome (GlobScript.process_all E files total c d) = Ret (c + length files)
  /\ same_effects g (GlobScript.process_all E files total c d)
                    (run_files E files d).
Proof.
  intros Hg. revert c d. induction files as [|p rest IH]; intros c d.
  - cbn [GlobScript.process_all run_files length ret outcome].
    split; [f_equal; lia|done].
  - rewrite process_all_cons, run_files_cons.
    destruct (IH (S c) (disk (processImage E p d))) as [Ho He]. split.
    + cbn [emit outcome]. rewrite Ho. f_equal. simpl. lia.
    + apply same_effects_emit; [|done].
      rewrite flat_map_app. cbn [flat_map]. rewrite Hg. by rewrite !app_nil_r.
Qed.

Lemma process_all_app a b total c d :
  GlobScript.process_all E (a ++ b) total c d =
  emit (ops (GlobScript.process_all E a total c d))
       (out (GlobScript.process_all E a total c d))
       (GlobScript.process_all E b total (c + length a)
          (disk (GlobScript.process_all E a total c d))).
Proof.
  revert c d. induction a as [|p a IH]; intros c d.
  - cbn [app GlobScript.process_all ret ops out disk length].
    rewrite emit_nil. by rewrite Nat.add_0_r.
  - rewrite <- app_comm_cons, !process_all_cons, IH, emit_emit.
    cbn [emit disk ops out length]. by rewrite Nat.add_succ_r.
Qed.

Lemma batches_unfold files i c :
  WorklistScript.batches E files i c =
  if lt_dec i (length files) then
    (console (LBatch (i / WorklistScript.batchSize + 1)
                (WorklistScript.ceil_div (length files) WorklistScript.batchSize)) ;;;
     c' <- WorklistScript.process_batch E
             (take WorklistScript.batchSize (drop i files)) (length files) c ;;
     WorklistScript.batches E files (i + WorklistScript.batchSize) c')%js
  else ret c.
Proof.
  rewrite WorklistScript.batches_equation_1.
  destruct (lt_dec i (length files)); reflexivity.
Qed.

(** The batched loop against the plain loop over what is left of the list:
    the batch headers and the progress lines only. *)
Lemma batches_vs_all {X} (g : LogLine -> list X) files :
  (forall a b, g (LProgressRunning a b) = g (LProgress a b)) ->
  g LEstimatedCompletion = [] ->
  (forall a b, g (LBatch a b) = []) ->
  forall n i c d, length files - i <= n ->
  outcome (WorklistScript.batches E files i c d) = Ret (c + length (drop i files))
  /\ same_effects g (WorklistScript.batches E files i c d)
                    (GlobScript.process_all E (drop i files) (length files) c d).
Proof.
  intros Hg1 Hest Hg2. induction n as [|n IH]; intros i c d Hn;
    rewrite batches_unfold; destruct (lt_dec i (length files)) as [Hlt|Hge];
    try lia.
  - rewrite drop_ge by lia.
    cbn [GlobScript.process_all length ret outcome].
    split; [f_equal; lia|done].
  - set (batch := take WorklistScript.batchSize (drop i files)).
    destruct (process_batch_vs_all g batch (length files) c d Hg1 Hest)
      as [Hbo Hbe].
    mrun. rewrite (bind_of_outcome_Ret _ _ _ _ Hbo). mrun.
    set (r := WorklistScript.process_batch E batch (length files) c d) in *.
    destruct (IH (i + WorklistScript.batchSize) (c + length batch) (disk r))
      as [Ho He]; [unfold WorklistScript.batchSize; lia|].
    assert (Hsplit : drop i files = batch ++ drop (i + WorklistScript.batchSize) files).
    { unfold batch. rewrite <- (take_drop WorklistScript.batchSize (drop i files)) at 1.
      by rewrite drop_drop. }
    split.
    + cbn [emit outcome]. rewrite Ho. f_equal.
      rewrite Hsplit, length_app. lia.
    + rewrite Hsplit, process_all_app.
      destruct Hbe as (Hd & Hops & Hout). rewrite <- Hd, <- Hops.
      apply same_effects_emit; [|exact He].
      cbn [flat_map]. rewrite Hg2. exact Hout.
  - rewrite drop_ge by lia.
    cbn [GlobScript.process_all length ret outcome].
    split; [f_equal; lia|done].
Qed.

(** The batched loop against the bare sequence of files, through a filter
    that drops what the orchestrators print. *)
Lemma batches_effects (f : LogLine -> bool) files d :
  (forall a b, f (LProgressRunning a b) = false) ->
  (forall a b, f (LProgress a b) = false) ->
  f LEstimatedCompletion = false ->
  (forall a b, f (LBatch a b) = false) ->
  outcome (WorklistScript.batches E files 0 0 d) = Ret (length files)
  /\ disk (WorklistScript.batches E files 0 0 d) = disk (run_files E files d)
  /\ ops (WorklistScript.batches E files 0 0 d) = ops (run_files E files d)
  /\ List.filter f (out (WorklistScript.batches E files 0 0 d))
     = List.filter f (out (run_files E files d)).
Proof.
  intros H1 H2 Hest H3.
  destruct (batches_vs_all (keep f) files) with (n := length files) (i := 0)
    (c := 0) (d := d) as [Ho He];
    [intros; unfold keep; by rewrite H1, H2|unfold keep; by rewrite Hest
    |intros; unfold keep; by rewrite H3|lia|].
  destruct (process_all_effects (keep f) files (length files) 0 d) as [_ He'];
    [intros; unfold keep; by rewrite H2|].
  rewrite drop_0 in *.
  destruct (same_effects_trans _ _ _ _ He He') as (Hd & Hops & Hout).
  rewrite !flat_map_keep in Hout. done.
Qed.

End TransformerFacts.

(** ** The transformer as a whole *)

Section PipelineFacts.

Context (E : Env).

Lemma processImage_unrecognized p d :
  ~ recognized p -> processImage E p d = mkRes (Ret tt) d [] [].
Proof.
  intros H. apply includes_false in H.
  unfold processImage, processImage_body. rewrite H. reflexivity.
Qed.

Lemma resized_disk p data (d : gmap string content) :
  <[p := data]> (delete (temp_of p) (delete p (<[temp_of p := data]> d)))
  = <[p := data]> (delete (temp_of p) d).
Proof.
  pose proof (temp_of_neq p) as Hne.
  apply map_eq. intros q.
  destruct (decide (q = p)) as [->|Hq]; [by rewrite !lookup_insert_eq|].
  rewrite !lookup_insert_ne by done.
  destruct (decide (q = temp_of p)) as [->|Hq']; [by rewrite !lookup_delete_eq|].
  rewrite !lookup_delete_ne by done. by rewrite lookup_insert_ne.
Qed.

Lemma before_commit_run p c md d :
  d !! p = Some c -> sharp_metadata E c = inr md ->
  before_commit E p d = emit [OpMetadata p] [] (resize_step E p md d).
Proof.
  intros Hd Hmd. unfold before_commit.
  erewrite bind_of_Ret by (rewrite sharp_probe_run, Hd, Hmd; reflexivity).
  reflexivity.
Qed.

Lemma ops_bind_prefix {A B} (m : M A) (k : A -> M B) d :
  ops (m d) `prefix_of` ops (bind m k d).
Proof.
  unfold bind. destruct (m d) as [[a|e|c] d1 o1 l1]; cbn [outcome ops disk];
    [by eexists|done..].
Qed.

Lemma ops_try_catch_prefix {A} (m : M A) h d :
  ops (m d) `prefix_of` ops (try_catch m h d).
Proof.
  unfold try_catch. destruct (m d) as [[a|e|c] d1 o1 l1]; cbn [outcome ops disk];
    [done|by eexists|done].
Qed.

(** After the probe, the calls of [processImage] start with the calls of
    the resize step. *)
Lemma processImage_ops_prefix p c md d :
  recognized p -> d !! p = Some c -> sharp_metadata E c = inr md ->
  (OpMetadata p :: ops (resize_step E p md d)) `prefix_of` ops (processImage E p d).
Proof.
  intros Hrec Hd Hmd. unfold processImage.
  etrans; [|apply ops_try_catch_prefix].
  rewrite (body_after_probe E p c md) by done. cbn [emit ops app].
  apply prefix_cons, ops_bind_prefix.
Qed.

(** C1.  For a recognized file whose probe succeeds: the temporary path
    differs from the file's own; when the probed width exceeds [MAX_WIDTH]
    and the resized output is written in full, the calls are probe, write
    to the temporary path, unlink of the original, rename of the temporary
    file, in this order, and the disk before the commit holds the resized
    bytes at the original path and nothing at the temporary one; when the
    write fails or stops half way, neither unlink nor rename is called, the
    original keeps its bytes, the disk differs from the initial one at most
    by the orphaned temporary file, and the error is logged; when the width
    does not exceed [MAX_WIDTH] (or is undefined), no file is written,
    unlinked or renamed for a resize and the temporary path is untouched. *)
Theorem resize_goes_through_temp p c md d :
  recognized p -> d !! p = Some c -> sharp_metadata E c = inr md ->
  temp_of p <> p
  /\ (js_gt (width md) MAX_WIDTH = true ->
      forall data, sharp_resize E c MAX_WIDTH = Written data ->
        before_commit E p d =
          mkRes (Ret tt) (<[p := data]> (delete (temp_of p) d))
            [OpMetadata p; OpToFile p (temp_of p); OpUnlink p;
             OpRename (temp_of p) p] []
        /\ [OpMetadata p; OpToFile p (temp_of p); OpUnlink p;
            OpRename (temp_of p) p] `prefix_of` ops (processImage E p d))
  /\ (js_gt (width md) MAX_WIDTH = true ->
      forall partial e, sharp_resize E c MAX_WIDTH = WriteFailed partial e ->
        processImage E p d =
          mkRes (Ret tt)
            (match partial with
             | Some data => <[temp_of p := data]> d
             | None => d
             end)
            [OpMetadata p; OpToFile p (temp_of p)]
            [LProcessing p; width_line md; LErrorProcessing p (message e)]
        /\ disk (processImage E p d) !! p = Some c)
  /\ (js_gt (width md) MAX_WIDTH = false ->
      List.filter is_resize_op (ops (processImage E p d)) = []
      /\ disk (processImage E p d) !! temp_of p = d !! temp_of p).
Proof.
  intros Hrec Hd Hmd. split; [apply temp_of_neq|]. split; [|split].
  - intros Hw data Hr.
    pose proof (resize_step_written E p md c data d Hw Hd Hr) as Hstep.
    rewrite resized_disk in Hstep. split.
    + rewrite (before_commit_run p c md) by done. by rewrite Hstep.
    + pose proof (processImage_ops_prefix p c md d Hrec Hd Hmd) as Hpre.
      by rewrite Hstep in Hpre.
  - intros Hw partial e Hr.
    pose proof (resize_step_failed E p md c partial e d Hw Hd Hr) as Hstep.
    rewrite (processImage_resize_fails E p c md e _ _ d Hrec Hd Hmd Hstep).
    split; [done|]. cbn [disk].
    destruct partial; [|done]. by rewrite lookup_insert_ne by apply temp_of_neq.
  - intros Hw.
    pose proof (resize_step_skip E p md d Hw) as Hstep.
    pose proof (optimize_step_run E p (Str.toLowerCase (Str.extname p)) c d Hd) as Hopt.
    destruct (Str.includes _ (Str.toLowerCase (Str.extname p))) in Hopt.
    2:{ rewrite (processImage_optimize_done E p c md _ _ _ _ _ d Hrec Hd Hmd Hstep Hopt).
        done. }
    destruct (0 <? _)%nat in Hopt.
    2:{ rewrite (processImage_optimize_done E p c md _ _ _ _ _ d Hrec Hd Hmd Hstep Hopt).
        done. }
    destruct (run_plugins E _ c) as [e|buf] in Hopt.
    { rewrite (processImage_optimize_fails E p c md _ _ _ _ _ _ d Hrec Hd Hmd Hstep Hopt).
      done. }
    destruct (length buf <? length c)%nat in Hopt;
      rewrite (processImage_optimize_done E p c md _ _ _ _ _ d Hrec Hd Hmd Hstep Hopt);
      cbn [disk ops]; [|done].
    split; [done|]. by rewrite lookup_insert_ne by (apply not_eq_sym, temp_of_neq).
Qed.

Lemma before_commit_inv p d d1 o1 l1 :
  before_commit E p d = mkRes (Ret tt) d1 o1 l1 ->
  exists c0 md o1',
    d !! p = Some c0 /\ sharp_metadata E c0 = inr md /\
    resize_step E p md d = mkRes (Ret tt) d1 o1' [] /\
    o1 = OpMetadata p :: o1' /\ l1 = [] /\
    (o1' = [] \/ o1' = [OpToFile p (temp_of p); OpUnlink p; OpRename (temp_of p) p]).
Proof.
  intros H. unfold before_commit in H.
  pose proof (sharp_probe_run E p d) as Hp.
  destruct (d !! p) as [c0|] eqn:Hd;
    [|by rewrite (bind_of_Throw _ _ _ _ _ _ _ Hp) in H].
  destruct (sharp_metadata E c0) as [e|md] eqn:Hmd;
    [by rewrite (bind_of_Throw _ _ _ _ _ _ _ Hp) in H|].
  rewrite (bind_of_Ret _ _ _ _ _ _ _ Hp) in H.
  exists c0, md.
  destruct (js_gt (width md) MAX_WIDTH) eqn:Hw.
  - destruct (sharp_resize E c0 MAX_WIDTH) as [data|partial e] eqn:Hr.
    + rewrite (resize_step_written E p md c0 data d Hw Hd Hr) in H |- *.
      rewrite emit_mkRes in H. injection H as <- <- <-. eauto 10.
    + by rewrite (resize_step_failed E p md c0 partial e d Hw Hd Hr) in H.
  - rewrite (resize_step_skip E p md d Hw) in H |- *.
    rewrite emit_mkRes in H. injection H as <- <- <-. eauto 10.
Qed.

Lemma plugins_for_nonempty extension :
  Str.includes [".jpg"; ".jpeg"; ".png"; ".gif"; ".svg"] extension = true ->
  (0 <? length (plugins_for extension))%nat = true.
Proof.
  intros H%includes_elem_of.
  repeat (apply elem_of_cons in H as [->|H]; [reflexivity|]).
  by apply elem_of_nil in H.
Qed.


(** C2.  Let [d1] be the disk after the probe and the resize step, and [c]
    the content of the file there.  Whatever happens next, the file ends
    with a content no longer than [c].  When the compressor of the
    extension returns [buf]: the file is written if and only if [buf] is
    strictly shorter than [c]; if it is, the final disk is [d1] with [buf]
    at the path; if it is not, the final disk is [d1] itself and the
    "keeping original" line is printed. *)
Theorem commit_only_when_smaller p d d1 o1 c :
  recognized p ->
  before_commit E p d = mkRes (Ret tt) d1 o1 [] -> d1 !! p = Some c ->
  let extension := Str.toLowerCase (Str.extname p) in
  let r := processImage E p d in
  (exists c', disk r !! p = Some c' /\ length c' <= length c)
  /\ forall buf,
       Str.includes [".jpg"; ".jpeg"; ".png"; ".gif"; ".svg"] extension = true ->
       run_plugins E (plugins_for extension) c = inr buf ->
       (OpWriteFile p ∈ ops r <-> length buf < length c)
       /\ (length buf < length c ->
           disk r = <[p := buf]> d1 /\ LOptimized (length c) (length buf) ∈ out r)
       /\ (length c <= length buf ->
           disk r = d1 /\ LKeepingOriginal ∈ out r).
Proof.
  intros Hrec Hbc Hd1 extension r.
  destruct (before_commit_inv p d d1 o1 [] Hbc)
    as (c0 & md & o1' & Hd & Hmd & Hstep & -> & _ & Ho1').
  pose proof (optimize_step_run E p extension c d1 Hd1) as Hopt.
  assert (Hnw : forall o2, OpWriteFile p ∈ OpMetadata p :: o1' ++ o2 -> OpWriteFile p ∈ o2).
  { intros o2 Hin. apply elem_of_cons in Hin as [?|Hin]; [done|].
    apply elem_of_app in Hin as [Hin|Hin]; [|done].
    destruct Ho1' as [-> | ->];
      repeat (apply elem_of_cons in Hin as [?|Hin]; [done|]);
      by apply elem_of_nil in Hin. }
  destruct (Str.includes _ extension) eqn:Hinc.
  2:{ subst r. rewrite (processImage_optimize_done E p c0 md _ _ _ _ _ d Hrec Hd Hmd Hstep Hopt).
      split; [by exists c|]. intros buf [=]. }
  rewrite (plugins_for_nonempty _ Hinc) in Hopt.
  destruct (run_plugins E (plugins_for extension) c) as [e|buf] eqn:Hrun.
  { subst r. rewrite (processImage_optimize_fails E p c0 md _ _ _ _ _ _ d Hrec Hd Hmd Hstep Hopt).
    split; [by exists c|]. intros buf _ [=]. }
  destruct (length buf <? length c)%nat eqn:Hlt; subst r;
    rewrite (processImage_optimize_done E p c0 md _ _ _ _ _ d Hrec Hd Hmd Hstep Hopt);
    cbn [disk ops out].
  - apply Nat.ltb_lt in Hlt. split.
    { exists buf. rewrite lookup_insert_eq. split; [done|lia]. }
    intros buf' _ [= <-]. split; [|split].
    + split; [done|]. intros _. apply elem_of_cons. right.
      apply elem_of_app. right. do 3 (apply elem_of_cons; right). constructor.
    + intros _. split; [done|]. do 2 (apply elem_of_cons; right). constructor.
    + lia.
  - apply Nat.ltb_ge in Hlt. split; [by exists c|].
    intros buf' _ [= <-]. split; [|split].
    + split; [|lia]. intros Hin%Hnw.
      repeat (apply elem_of_cons in Hin as [?|Hin]; [done|]).
      by apply elem_of_nil in Hin.
    + lia.
    + intros _. split; [done|]. do 2 (apply elem_of_cons; right). constructor.
Qed.



Lemma corrupt_run p c e d :
  recognized p -> d !! p = Some c -> sharp_metadata E c = inl e ->
  processImage E p d =
  mkRes (Ret tt) d [OpMetadata p] [LProcessing p; LErrorProcessing p (message e)].
Proof.
  intros Hrec Hd Hmd. apply processImage_probe_fails; [done|].
  by rewrite sharp_probe_run, Hd, Hmd.
Qed.






(** C7.  From the same list of files and the same disk, the loop in batches
    of ten and the plain loop count the same number of files, leave the
    same disk and make the same calls in the same order, which are those of
    the files taken one after the other; their logs are equal once the
    batch headers are erased and the progress lines are read without their
    running time, and they hold the same lines of [processImage]. *)
Theorem batching_changes_only_the_log files d :
  let a := WorklistScript.batches E files 0 0 d in
  let b := GlobScript.process_all E files (length files) 0 d in
  outcome a = Ret (length files) /\ outcome b = Ret (length files)
  /\ disk a = disk b /\ ops a = ops b
  /\ flat_map unbatched (out a) = flat_map unbatched (out b)
  /\ List.filter transformer_line (out a) = List.filter transformer_line (out b)
  /\ disk a = disk (run_files E files d) /\ ops a = ops (run_files E files d).
Proof.
  intros a b.
  destruct (batches_vs_all E unbatched files) with (n := length files) (i := 0)
    (c := 0) (d := d) as [Ho (Hd & Hops & Hout)]; [done|done|done|lia|].
  destruct (batches_vs_all E (keep transformer_line) files) with (n := length files)
    (i := 0) (c := 0) (d := d) as [_ (_ & _ & Htr)]; [done|done|done|lia|].
  destruct (process_all_effects E (keep transformer_line) files (length files) 0 d)
    as [Hb _]; [done|].
  destruct (batches_effects E transformer_line files d) as (_ & Hd' & Hops' & _);
    [done..|].
  rewrite drop_0 in *. rewrite !flat_map_keep in Htr. simpl in Hb.
  repeat split; done.
Qed.

(** ** The orchestrators as wholes *)

Lemma worklist_files_eq : worklist_files E = fst (walk [(".", root E)] [] []).
Proof. reflexivity. Qed.

Lemma worklist_find_run d cwd :
  process_cwd E = inr cwd ->
  WorklistScript.findAndProcessImages E d =
  emit [] ([LStarting; LStartTime; LCurrentDirectory cwd]
           ++ snd (walk [(".", root E)] [] [])
           ++ [LFound (length (worklist_files E))])
    (emit (ops (WorklistScript.batches E (worklist_files E) 0 0 d))
          (out (WorklistScript.batches E (worklist_files E) 0 0 d))
          (mkRes (Ret tt) (disk (WorklistScript.batches E (worklist_files E) 0 0 d))
             [] [LAllProcessed; LTotalTime; LStarted; LFinished])).
Proof.
  intros Hcwd. unfold WorklistScript.findAndProcessImages.
  destruct (batches_effects E transformer_line (worklist_files E) d)
    as (Ho & _); [done..|].
  erewrite try_catch_of_Ret; [reflexivity|].
  mrun. rewrite Hcwd. cbn [lift_result]. mrun.
  erewrite (bind_of_Ret (getAllFilesIterative E ".")) by reflexivity.
  mrun. fold (worklist_files E). rewrite <- worklist_files_eq.
  rewrite (bind_of_outcome_Ret _ _ _ _ Ho). mrun.
  unfold console. unfold emit. cbn [outcome disk ops out app].
  rewrite ?app_nil_r, <- ?app_assoc. reflexivity.
Qed.

Lemma worklist_main_ok d cwd :
  process_cwd E = inr cwd ->
  outcome (WorklistScript.main E d) = Ret tt
  /\ disk (WorklistScript.main E d)
     = disk (WorklistScript.batches E (worklist_files E) 0 0 d).
Proof.
  intros Hcwd. unfold WorklistScript.main, try_catch.
  rewrite (worklist_find_run d cwd Hcwd). done.
Qed.

Lemma worklist_main_no_cwd d e :
  process_cwd E = inl e ->
  WorklistScript.main E d =
  mkRes (Exit 1) d [] [LStarting; LStartTime; LErrorFindingObject e].
Proof.
  intros Hcwd.
  assert (Hf : WorklistScript.findAndProcessImages E d =
               mkRes (Exit 1) d [] [LStarting; LStartTime; LErrorFindingObject e]).
  { unfold WorklistScript.findAndProcessImages.
    erewrite try_catch_of_Throw.
    2:{ mrun. rewrite Hcwd. cbn [lift_result]. mrun. unfold throw, emit.
        cbn [outcome disk ops out app]. reflexivity. }
    mrun. reflexivity. }
  unfold WorklistScript.main. by rewrite (try_catch_of_Exit _ _ _ _ _ _ _ Hf).
Qed.

Lemma glob_patterns_run patterns acc d :
  (forall pattern, pattern ∈ patterns -> exists files, glob E pattern = inr files) ->
  exists files, GlobScript.glob_patterns E patterns acc d = mkRes (Ret files) d [] [].
Proof.
  revert acc. induction patterns as [|pat rest IH]; intros acc Hg.
  - by exists acc.
  - cbn [GlobScript.glob_patterns]. destruct (Hg pat) as [files Hf]; [constructor|].
    rewrite Hf. cbn [lift_result]. mrun. apply IH.
    intros q Hq. apply Hg. by apply elem_of_cons; right.
Qed.

Lemma glob_main_ok d :
  (forall pattern, pattern ∈ map (fun ext => "**/*" +:+ ext) IMAGE_EXTENSIONS ->
     exists files, glob E pattern = inr files) ->
  outcome (GlobScript.main E d) = Ret tt.
Proof.
  intros Hg. unfold GlobScript.main, GlobScript.findAndProcessImages.
  destruct (glob_patterns_run (map (fun ext => "**/*" +:+ ext) IMAGE_EXTENSIONS) [] d Hg)
    as [files Hf].
  destruct (process_all_effects E (keep transformer_line) files (length files) 0 d)
    as [Ho _]; [done|].
  erewrite try_catch_of_Ret; [reflexivity|].
  erewrite try_catch_of_Ret; [reflexivity|].
  cbv zeta. erewrite bind_of_Ret by exact Hf. mrun.
  rewrite (bind_of_outcome_Ret _ _ _ _ Ho). mrun. unfold console, emit.
  cbn [outcome disk ops out]. reflexivity.
Qed.

(** C5, amended.  The script with the worklist ends with status 0 exactly
    when [process.cwd()] returns, and with status 1 exactly when it throws:
    neither the number of files that fail nor a directory that cannot be
    listed, the root included, changes the status.  The script with glob
    ends with status 0 when its six glob calls return. *)
Theorem exit_code_of_the_run d :
  (exit_code (WorklistScript.main E d) = 0%Z <-> exists cwd, process_cwd E = inr cwd)
  /\ (exit_code (WorklistScript.main E d) = 1%Z <-> exists e, process_cwd E = inl e)
  /\ ((forall pattern, pattern ∈ map (fun ext => "**/*" +:+ ext) IMAGE_EXTENSIONS ->
        exists files, glob E pattern = inr files) ->
      exit_code (GlobScript.main E d) = 0%Z).
Proof.
  split; [|split].
  - destruct (process_cwd E) as [e|cwd] eqn:Hcwd.
    + rewrite (worklist_main_no_cwd d e Hcwd). cbn [exit_code outcome].
      split; [done|]. by intros [? ?].
    + unfold exit_code. destruct (worklist_main_ok d cwd Hcwd) as [-> _].
      split; eauto.
  - destruct (process_cwd E) as [e|cwd] eqn:Hcwd.
    + rewrite (worklist_main_no_cwd d e Hcwd). cbn [exit_code outcome].
      split; eauto.
    + unfold exit_code. destruct (worklist_main_ok d cwd Hcwd) as [-> _].
      split; [done|]. by intros [? ?].
  - intros Hg. unfold exit_code. by rewrite (glob_main_ok d Hg).
Qed.

(** ** Files on which a run has nothing left to do *)

Lemma processImage_no_file p d :
  d !! p = None -> disk (processImage E p d) = d.
Proof.
  intros Hd. destruct (decide (recognized p)) as [Hrec|Hrec].
  - erewrite (processImage_probe_fails E p _ d Hrec); [done|].
    by rewrite sharp_probe_run, Hd.
  - by rewrite processImage_unrecognized.
Qed.




(** C10.  For a path whose lowercase extension is not one of the six,
    [processImage] returns at once: normal outcome, same disk, no call to
    sharp, imagemin or fs, no line printed. *)
Theorem unrecognized_path_is_not_touched p d :
  ~ recognized p -> processImage E p d = mkRes (Ret tt) d [] [].
Proof. apply processImage_unrecognized. Qed.

(** No [.webp] file reaches the compressor. *)
Lemma webp_skips_imagemin p d :
  Str.toLowerCase (Str.extname p) = ".webp" ->
  List.filter is_imagemin_op (ops (processImage E p d)) = [].
Proof.
  intros Hext.
  assert (Hrec : recognized p).
  { unfold recognized. rewrite Hext. by apply includes_elem_of. }
  destruct (d !! p) as [c|] eqn:Hd.
  2:{ erewrite (processImage_probe_fails E p _ d Hrec); [done|].
      by rewrite sharp_probe_run, Hd. }
  destruct (sharp_metadata E c) as [e|md] eqn:Hmd;
    [by rewrite (corrupt_run p c e d)|].
  assert (Hopt : forall d1, optimize_step E p (Str.toLowerCase (Str.extname p)) d1
                            = mkRes (Ret tt) d1 [] []).
  { intros d1. by rewrite Hext. }
  destruct (js_gt (width md) MAX_WIDTH) eqn:Hw.
  - destruct (sharp_resize E c MAX_WIDTH) as [data|partial e] eqn:Hr.
    + pose proof (resize_step_written E p md c data d Hw Hd Hr) as Hstep.
      by rewrite (processImage_optimize_done E p c md _ _ _ _ _ d Hrec Hd Hmd Hstep (Hopt _)).
    + pose proof (resize_step_failed E p md c partial e d Hw Hd Hr) as Hstep.
      by rewrite (processImage_resize_fails E p c md e _ _ d Hrec Hd Hmd Hstep).
  - pose proof (resize_step_skip E p md d Hw) as Hstep.
    by rewrite (processImage_optimize_done E p c md _ _ _ _ _ d Hrec Hd Hmd Hstep (Hopt _)).
Qed.
End PipelineFacts.

(** C3.  The code at a [.webp] file, 800 pixels wide, in a world where the
    WebP compressor would shrink it: the extension is recognized and the
    plugin chosen for it is [imageminWebp] at quality 80, yet the only call
    made is the probe, no compression line is printed and the disk is
    unchanged.  The list that guards the optimisation block lacks
    [".webp"], so the [.webp] branch below it is never reached. *)
Theorem webp_is_left_uncompressed :
  let p := "2020/banner.webp" in
  let r := processImage demo p demo_disk in
  recognized p
  /\ plugins_for (Str.toLowerCase (Str.extname p)) = [imageminWebp 80]
  /\ demo_disk !! p = Some [x08; x01; x02; x03]
  /\ run_plugins demo [imageminWebp 80] [x08; x01; x02; x03] = inr [x08; x02; x03]
  /\ ops r = [OpMetadata p]
  /\ out r = [LProcessing p; LWidthOk (Some 800%N); LCompleted p]
  /\ disk r = demo_disk.
Proof.
  cbv zeta. split; [by apply includes_elem_of|].
  repeat split; vm_compute; reflexivity.
Qed.

(** ** Discovery *)

Lemma Node_nested_ind (P : Node -> Prop) :
  P File -> P Other -> (forall e, P (Unlistable e)) ->
  (forall entries, Forall (fun e => P (snd e)) entries -> P (Dir entries)) ->
  forall n, P n.
Proof.
  intros Hf Ho Hu Hd. fix IH 1. intros [|entries|e|]; [exact Hf| |apply Hu|exact Ho].
  apply Hd. revert entries.
  fix IHl 1. intros [|[name c] l]; constructor; [apply IH|apply IHl].
Qed.

Lemma collect_Dir_nil sel desc dir : collect sel desc dir (Dir []) = [].
Proof. reflexivity. Qed.

Lemma collect_Dir_cons sel desc dir name c l :
  collect sel desc dir (Dir ((name, c) :: l)) =
  (if sel name c then [path_join dir name] else [])
  ++ (if desc name c then collect sel desc (path_join dir name) c else [])
  ++ collect sel desc dir (Dir l).
Proof. reflexivity. Qed.

Lemma listing_errors_Dir_cons dir name c l :
  listing_errors dir (Dir ((name, c) :: l)) =
  (if isDirectory c then listing_errors (path_join dir name) c else [])
  ++ listing_errors dir (Dir l).
Proof. reflexivity. Qed.


Lemma scan_entries_spec dir entries queue files :
  scan_entries dir entries queue files =
  (queue ++ subdirs dir entries, files ++ direct_images dir entries).
Proof.
  revert queue files. induction entries as [|[name c] l IH]; intros queue files.
  - cbn. by rewrite !app_nil_r.
  - cbn [scan_entries subdirs direct_images flat_map fst snd].
    destruct c; cbn [isDirectory isFile andb]; rewrite ?IH;
      try destruct (is_image_name name); cbn [app];
      by rewrite <- ?app_assoc.
Qed.


Lemma images_under_Dir dir entries :
  images_under dir (Dir entries) ≡ₚ
  direct_images dir entries ++ images_of_queue (subdirs dir entries).
Proof.
  unfold images_under.
  induction entries as [|[name c] l IH]; [done|].
  rewrite collect_Dir_cons. cbn [direct_images subdirs flat_map fst snd].
  fold (direct_images dir l). fold (subdirs dir l).
  unfold images_of_queue in *. rewrite flat_map_app. rewrite IH.
  destruct c; cbn [isDirectory isFile andb app flat_map fst snd];
    rewrite ?app_nil_r; try reflexivity.
  - destruct (is_image_name name); reflexivity.
  - apply Permutation_app_swap_app.
Qed.

Lemma listing_errors_Dir dir entries :
  listing_errors dir (Dir entries) = errors_of_queue (subdirs dir entries).
Proof.
  induction entries as [|[name c] l IH]; [done|].
  rewrite listing_errors_Dir_cons, IH.
  cbn [subdirs flat_map fst snd]. fold (subdirs dir l).
  unfold errors_of_queue. rewrite flat_map_app.
  destruct (isDirectory c); cbn [flat_map fst snd app]; by rewrite ?app_nil_r.
Qed.

Lemma walk_nil files log : walk [] files log = (files, log).
Proof. apply walk_equation_1. Qed.

Lemma walk_cons_error dir nd error queue files log :
  readdirSync dir nd = inl error ->
  walk ((dir, nd) :: queue) files log =
  walk queue files (log ++ [LErrorReadingDirectory dir (message error)]).
Proof.
  intros H. rewrite walk_equation_2.
  destruct nd; cbn [readdirSync] in H; try discriminate H;
    injection H as <-; cbn [readdirSync]; unfold inspect;
    by rewrite walk_clause_2_equation_1.
Qed.

Lemma walk_cons_listing dir entries queue files log :
  walk ((dir, Dir entries) :: queue) files log =
  walk (queue ++ subdirs dir entries) (files ++ direct_images dir entries) log.
Proof.
  rewrite walk_equation_2. cbn [readdirSync]. unfold inspect.
  rewrite walk_clause_2_equation_2. by rewrite scan_entries_spec.
Qed.

Lemma subdirs_weight dir entries :
  entries_weight (subdirs dir entries) <= entries_weight entries.
Proof.
  induction entries as [|[name c] l IH]; [done|].
  cbn [subdirs flat_map fst snd]. fold (subdirs dir l).
  rewrite entries_weight_app, entries_weight_cons.
  destruct (isDirectory c).
  - rewrite entries_weight_cons. change (entries_weight []) with 0. lia.
  - change (entries_weight []) with 0. lia.
Qed.

(** The walk returns what is below the queued directories, and prints a
    line for each of them that cannot be listed. *)
Lemma walk_spec n : forall queue files log,
  entries_weight queue <= n ->
  fst (walk queue files log) ≡ₚ files ++ images_of_queue queue
  /\ snd (walk queue files log) ≡ₚ log ++ errors_of_queue queue.
Proof.
  induction n as [|n IH]; intros [|[dir nd] queue] files log Hn.
  - rewrite walk_nil. cbn. by rewrite !app_nil_r.
  - rewrite entries_weight_cons in Hn. pose proof (node_weight_pos nd). lia.
  - rewrite walk_nil. cbn. by rewrite !app_nil_r.
  - rewrite entries_weight_cons in Hn.
    unfold images_of_queue, errors_of_queue. cbn [flat_map fst snd].
    fold (images_of_queue queue). fold (errors_of_queue queue).
    pose proof (node_weight_pos nd) as Hpos.
    destruct nd as [|entries|e|].
    + rewrite (walk_cons_error dir File (ENOTDIR dir)) by done.
      destruct (IH queue files (log ++ [LErrorReadingDirectory dir (message (ENOTDIR dir))]))
        as [H1 H2]; [lia|].
      split; [done|]. rewrite H2. by rewrite <- app_assoc.
    + rewrite walk_cons_listing. rewrite node_weight_Dir in Hn.
      destruct (IH (queue ++ subdirs dir entries) (files ++ direct_images dir entries) log)
        as [H1 H2].
      { rewrite entries_weight_app. pose proof (subdirs_weight dir entries). lia. }
      split.
      * rewrite H1. unfold images_of_queue at 1. rewrite flat_map_app.
        fold (images_of_queue queue). fold (images_of_queue (subdirs dir entries)).
        rewrite images_under_Dir. rewrite <- !app_assoc. f_equiv. f_equiv.
        apply Permutation_app_comm.
      * rewrite H2. unfold errors_of_queue at 1. rewrite flat_map_app.
        fold (errors_of_queue queue). fold (errors_of_queue (subdirs dir entries)).
        rewrite listing_errors_Dir. f_equiv. apply Permutation_app_comm.
    + rewrite (walk_cons_error dir (Unlistable e) e) by done.
      destruct (IH queue files (log ++ [LErrorReadingDirectory dir (message e)]))
        as [H1 H2]; [lia|].
      split; [done|]. rewrite H2. by rewrite <- app_assoc.
    + rewrite (walk_cons_error dir Other (ENOTDIR dir)) by done.
      destruct (IH queue files (log ++ [LErrorReadingDirectory dir (message (ENOTDIR dir))]))
        as [H1 H2]; [lia|].
      split; [done|]. rewrite H2. by rewrite <- app_assoc.
Qed.

(** C8.  Discovery always returns normally, without touching the disk.  Its
    result is, up to order, the image files of every directory of the tree
    that lists its entries, and its output is, up to order, one line for
    each directory met whose listing throws: a listing failure removes what
    is below that directory and nothing else. *)
Theorem unlistable_directories_are_skipped (E : Env) d :
  let r := getAllFilesIterative E "." d in
  exists files,
    outcome r = Ret files
    /\ files ≡ₚ images_under "." (root E)
    /\ out r ≡ₚ listing_errors "." (root E)
    /\ disk r = d /\ ops r = [].
Proof.
  intros r. exists (fst (walk [(".", root E)] [] [])).
  destruct (walk_spec (entries_weight [(".", root E)]) [(".", root E)] [] [])
    as [H1 H2]; [done|].
  cbn in H1, H2. rewrite app_nil_r in H1, H2. done.
Qed.

(** ** The two discoveries compared *)







Lemma take_while_all f l : forallb f l = true -> Str.take_while f l = l.
Proof.
  induction l as [|c l IH]; [done|]. cbn [forallb Str.take_while].
  intros [Hc Hl]%andb_true_iff. rewrite Hc. by rewrite IH.
Qed.

Lemma drop_while_none f l :
  forallb (fun c => negb (f c)) l = true -> Str.drop_while f l = l.
Proof.
  destruct l as [|c l]; [done|]. cbn [forallb Str.drop_while].
  intros [Hc _]%andb_true_iff. by apply negb_true_iff in Hc as ->.
Qed.

Lemma forallb_rev {A} (f : A -> bool) l : forallb f (rev l) = forallb f l.
Proof.
  induction l as [|c l IH]; [done|]. cbn [rev forallb].
  rewrite forallb_app, IH. cbn [forallb]. rewrite andb_true_r. apply andb_comm.
Qed.


Lemma of_chars_chars s : Str.of_chars (Str.chars s) = s.
Proof. apply string_of_list_ascii_of_string. Qed.















Lemma worklist_files_images E : worklist_files E ≡ₚ images_under "." (root E).
Proof.
  destruct (walk_spec (entries_weight [(".", root E)]) [(".", root E)] [] [])
    as [H1 _]; [done|].
  cbn in H1. by rewrite app_nil_r in H1.
Qed.



(** A directory that cannot be listed splits the two discoveries as well:
    in the example tree, where [private] is such a directory, every glob
    call rejects and the script with glob has no file to process, while
    the worklist logs the failure and returns the five images around it. *)
Lemma unlistable_directory_splits_the_discoveries :
  glob_files demo = []
  /\ length (worklist_files demo) = 5
  /\ ~ same_file_set demo_cwd demo.
Proof.
  assert (H1 : glob_files demo = []) by (vm_compute; reflexivity).
  assert (H2 : worklist_files demo
               = ["photo.jpg"; "icon.png"; "broken.jpg"; "2020/banner.webp";
                  "2020/Scan.JPEG"]) by (vm_compute; reflexivity).
  split; [exact H1|]. split; [by rewrite H2|].
  intros H. specialize (H (resolve demo_cwd "photo.jpg")).
  rewrite H1, H2 in H. destruct H as [_ H].
  assert (Hin : resolve demo_cwd "photo.jpg" ∈ []) by (apply H; by constructor).
  by apply elem_of_nil in Hin.
Qed.

(** ** The statements at concrete inputs *)

(** The scenario of the specification: a wide photo, a small icon, an empty
    file. *)
Example demo_run :
  worklist_files demo
  = ["photo.jpg"; "icon.png"; "broken.jpg"; "2020/banner.webp"; "2020/Scan.JPEG"]
  /\ exit_code (WorklistScript.main demo demo_disk) = 0%Z
  /\ List.filter is_failure_line (out (WorklistScript.main demo demo_disk))
     = [LErrorProcessing "broken.jpg" "Input buffer is empty"]
  /\ disk (WorklistScript.main demo demo_disk) !! "photo.jpg"
     = Some [x19; x02; x03; x04]
  /\ disk (WorklistScript.main demo demo_disk) !! "broken.jpg" = Some [].
Proof. repeat split; vm_compute; reflexivity. Qed.

(** C1 at [photo.jpg], 4000 pixels wide. *)
Lemma resize_goes_through_temp_witness :
  recognized "photo.jpg"
  /\ demo_disk !! "photo.jpg" = Some [x28; x01; x02; x03; x04]
  /\ sharp_metadata demo [x28; x01; x02; x03; x04] = inr (mkMetadata (Some 4000%N))
  /\ before_commit demo "photo.jpg" demo_disk =
       mkRes (Ret tt)
         (<["photo.jpg" := [x19; x01; x02; x03; x04]]>
            (delete (temp_of "photo.jpg") demo_disk))
         [OpMetadata "photo.jpg"; OpToFile "photo.jpg" (temp_of "photo.jpg");
          OpUnlink "photo.jpg"; OpRename (temp_of "photo.jpg") "photo.jpg"] [].
Proof.
  assert (H1 : recognized "photo.jpg") by (by apply includes_elem_of).
  assert (H2 : demo_disk !! "photo.jpg" = Some [x28; x01; x02; x03; x04])
    by reflexivity.
  assert (H3 : sharp_metadata demo [x28; x01; x02; x03; x04]
               = inr (mkMetadata (Some 4000%N))) by reflexivity.
  split; [exact H1|]. split; [exact H2|]. split; [exact H3|].
  destruct (resize_goes_through_temp demo "photo.jpg" _ _ demo_disk H1 H2 H3)
    as (_ & Hw & _).
  apply (Hw eq_refl [x19; x01; x02; x03; x04] eq_refl).
Defined.

(** C2 at [icon.png], which the compressor shrinks from two bytes to one. *)
Lemma commit_only_when_smaller_witness :
  recognized "icon.png"
  /\ before_commit demo "icon.png" demo_disk
     = mkRes (Ret tt) demo_disk [OpMetadata "icon.png"] []
  /\ demo_disk !! "icon.png" = Some [x01; x02]
  /\ disk (processImage demo "icon.png" demo_disk) = <["icon.png" := [x01]]> demo_disk.
Proof.
  assert (H1 : recognized "icon.png") by (by apply includes_elem_of).
  assert (H2 : before_commit demo "icon.png" demo_disk
               = mkRes (Ret tt) demo_disk [OpMetadata "icon.png"] [])
    by (vm_compute; reflexivity).
  assert (H3 : demo_disk !! "icon.png" = Some [x01; x02]) by reflexivity.
  split; [exact H1|]. split; [exact H2|]. split; [exact H3|].
  destruct (commit_only_when_smaller demo "icon.png" demo_disk demo_disk _ _ H1 H2 H3)
    as [_ Hbuf].
  destruct (Hbuf [x01] eq_refl eq_refl) as (_ & Hlt & _).
  apply Hlt. simpl. lia.
Defined.


(** C5, amended, in the example world without the directory that cannot
    be listed, where the six glob calls return. *)
Lemma exit_code_of_the_run_witness :
  (forall pattern, pattern ∈ map (fun ext => "**/*" +:+ ext) IMAGE_EXTENSIONS ->
     exists files, glob listable pattern = inr files)
  /\ exit_code (GlobScript.main listable demo_disk) = 0%Z.
Proof.
  assert (H : forall pattern,
             pattern ∈ map (fun ext => "**/*" +:+ ext) IMAGE_EXTENSIONS ->
             exists files, glob listable pattern = inr files).
  { intros pattern Hp. apply list_elem_of_In in Hp.
    destruct Hp as [<-|[<-|[<-|[<-|[<-|[<-|[]]]]]]]; eexists; reflexivity. }
  split; [exact H|].
  destruct (exit_code_of_the_run listable demo_disk) as (_ & _ & Hglob).
  exact (Hglob H).
Defined.

(** C5, as stated, fails: when the root cannot be listed, the failure is
    logged and the run ends with status 0. *)
Lemma root_listing_failure_exits_zero :
  ~ exits_nonzero_iff_catastrophic locked demo_disk.
Proof.
  intros [_ H].
  assert (Hcat : catastrophic locked).
  { right. eexists. reflexivity. }
  apply H in Hcat. apply Hcat. vm_compute. reflexivity.
Qed.




(** C10 at [notes.txt]. *)
Lemma unrecognized_path_is_not_touched_witness :
  ~ recognized "notes.txt"
  /\ processImage demo "notes.txt" demo_disk = mkRes (Ret tt) demo_disk [] [].
Proof.
  assert (H : ~ recognized "notes.txt").
  { intros Hr%includes_elem_of. discriminate Hr. }
  split; [exact H|].
  exact (unrecognized_path_is_not_touched demo "notes.txt" demo_disk H).
Defined.

(** * Further properties *)

(** ** Lists *)

Lemma omap_flat_map {A B} (f : A -> option B) (l : list A) :
  omap f l = flat_map (fun a => option_list (f a)) l.
Proof.
  induction l as [|a l IH]; [done|]. cbn [omap list_omap flat_map].
  fold (omap f l). rewrite IH. by destruct (f a).
Qed.

Lemma flat_map_nil_all {A B} (g : A -> list B) (l : list A) :
  Forall (fun a => g a = []) l -> flat_map g l = [].
Proof. induction 1 as [|a l Ha _ IH]; [done|]. cbn [flat_map]. by rewrite Ha, IH. Qed.

Lemma omap_none {A B} (f : A -> option B) (l : list A) :
  Forall (fun a => f a = None) l -> omap f l = [].
Proof.
  intros H. rewrite omap_flat_map. apply flat_map_nil_all.
  eapply Forall_impl; [exact H|]. by intros a ->.
Qed.

Lemma filter_none {A} (f : A -> bool) (l : list A) :
  Forall (fun a => f a = false) l -> List.filter f l = [].
Proof. induction 1 as [|a l Ha _ IH]; [done|]. cbn [List.filter]. by rewrite Ha. Qed.

Lemma filter_all {A} (f : A -> bool) (l : list A) :
  Forall (fun a => f a = true) l -> List.filter f l = l.
Proof. induction 1 as [|a l Ha _ IH]; [done|]. cbn [List.filter]. by rewrite Ha, IH. Qed.

Lemma elem_of_flat_map {A B} (g : A -> list B) (l : list A) (b : B) :
  b ∈ flat_map g l <-> exists a, a ∈ l /\ b ∈ g a.
Proof.
  rewrite !list_elem_of_In, in_flat_map.
  split; intros (a & Ha & Hb); exists a; by rewrite ?list_elem_of_In in *.
Qed.

(** ** Elapsed time *)

Example format_seconds : formatElapsedTime 1700000042500 1700000000000 = "42s".
Proof. vm_compute. reflexivity. Qed.

Example format_hours :
  formatElapsedTime (1700000000000 + 3605000) 1700000000000 = "1h 0m 5s".
Proof. vm_compute. reflexivity. Qed.

Example format_days :
  formatElapsedTime (2 * 86400000 + 3 * 3600000 + 4 * 60000 + 5999) 0 = "2d 3h 4m 5s".
Proof. vm_compute. reflexivity. Qed.

Example format_clock_set_back : formatElapsedTime 0 59500 = "-60s".
Proof. vm_compute. reflexivity. Qed.

Lemma floor_mod_nonneg ms unit modulus :
  (0 <= ms)%Z -> (0 < unit)%Z -> (0 < modulus)%Z ->
  floor_mod ms unit modulus = ((ms / unit) mod modulus)%Z.
Proof.
  intros Hms Hu Hm. unfold floor_mod.
  rewrite Z.rem_mod_nonneg by lia.
  rewrite Z.rem_mul_r by lia.
  rewrite (Z.mul_comm unit), Z.div_add by lia.
  rewrite (Z.div_small (ms mod unit)%Z) by (apply Z.mod_pos_bound; lia). lia.
Qed.

Lemma string_app_assoc (a b c : string) : (a +:+ b) +:+ c = a +:+ b +:+ c.
Proof.
  induction a as [|x a IH]; [done|].
  change (String x a +:+ b) with (String x (a +:+ b)).
  change (String x (a +:+ b) +:+ c) with (String x ((a +:+ b) +:+ c)).
  change (String x a +:+ b +:+ c) with (String x (a +:+ b +:+ c)).
  by rewrite IH.
Qed.

Lemma string_app_nil_l (a : string) : "" +:+ a = a.
Proof. reflexivity. Qed.

Ltac join_strings :=
  repeat (progress cbn [orb Z.ltb Z.compare] || rewrite orb_true_r
          || rewrite string_app_nil_l || rewrite string_app_assoc);
  reflexivity.

(** X1.  For a clock that has not gone back, the string is the elapsed time
    in whole seconds, written in days, hours, minutes and seconds: units
    above the largest one that is not zero are left out, the units below it
    are all shown, zero or not. *)
Theorem elapsed_time_in_whole_seconds now startTime :
  (startTime <= now)%Z ->
  let t := ((now - startTime) / 1000)%Z in
  formatElapsedTime now startTime =
  if (t <? 60)%Z then pretty t +:+ "s"
  else if (t <? 3600)%Z then pretty (t / 60)%Z +:+ "m " +:+ pretty (t mod 60)%Z +:+ "s"
  else if (t <? 86400)%Z then
    pretty (t / 3600)%Z +:+ "h " +:+ pretty (t / 60 mod 60)%Z +:+ "m "
    +:+ pretty (t mod 60)%Z +:+ "s"
  else
    pretty (t / 86400)%Z +:+ "d " +:+ pretty (t / 3600 mod 24)%Z +:+ "h "
    +:+ pretty (t / 60 mod 60)%Z +:+ "m " +:+ pretty (t mod 60)%Z +:+ "s".
Proof.
  intros Hle t. unfold formatElapsedTime.
  set (ms := (now - startTime)%Z). assert (Hms : (0 <= ms)%Z) by (unfold ms; lia).
  rewrite !floor_mod_nonneg by lia.
  assert (Ht : (0 <= t)%Z) by (apply Z.div_pos; lia).
  replace (ms / (1000 * 60))%Z with (t / 60)%Z
    by (unfold t; fold ms; rewrite Z.div_div by lia; done).
  replace (ms / (1000 * 60 * 60))%Z with (t / 3600)%Z
    by (unfold t; fold ms; rewrite Z.div_div by lia; done).
  replace (ms / (1000 * 60 * 60 * 24))%Z with (t / 86400)%Z
    by (unfold t; fold ms; rewrite Z.div_div by lia; done).
  change (ms / 1000)%Z with t. clearbody t. clear ms Hms Hle.
  destruct (Z.ltb_spec t 60) as [H60|H60].
  { rewrite !Z.div_small by lia. rewrite !Z.mod_small by lia. join_strings. }
  assert (Hd : (t / 3600 = (t / 60) / 60)%Z) by (rewrite Z.div_div by lia; done).
  assert (Hd' : (t / 86400 = (t / 3600) / 24)%Z) by (rewrite Z.div_div by lia; done).
  destruct (Z.ltb_spec t 3600) as [H3600|H3600].
  { assert (Hm : (1 <= t / 60 < 60)%Z)
      by (split; [apply Z.div_le_lower_bound|apply Z.div_lt_upper_bound]; lia).
    rewrite (Z.div_small t 3600), (Z.div_small t 86400) by lia.
    rewrite (Z.mod_small (t / 60)) by lia. rewrite Z.mod_0_l by lia.
    rewrite (proj2 (Z.ltb_lt 0 (t / 60))) by lia. join_strings. }
  assert (Hh : (1 <= t / 3600)%Z) by (apply Z.div_le_lower_bound; lia).
  destruct (Z.ltb_spec t 86400) as [Hday|Hday].
  { assert (Hh' : (t / 3600 < 24)%Z) by (apply Z.div_lt_upper_bound; lia).
    rewrite (Z.div_small t 86400) by lia.
    rewrite (Z.mod_small (t / 3600)) by lia.
    rewrite (proj2 (Z.ltb_lt 0 (t / 3600))) by lia.
    join_strings. }
  assert (Hdd : (1 <= t / 86400)%Z) by (apply Z.div_le_lower_bound; lia).
  rewrite (proj2 (Z.ltb_lt 0 (t / 86400))) by lia.
  join_strings.
Qed.

(** X2.  When the clock has gone back since the start, only the seconds are
    shown, as a number between -60 and 0: minutes, hours and days are never
    positive and are left out. *)
Theorem elapsed_time_after_a_clock_step_back now startTime :
  (now < startTime)%Z ->
  let seconds := floor_mod (now - startTime) 1000 60 in
  formatElapsedTime now startTime = pretty seconds +:+ "s"
  /\ (-60 <= seconds <= 0)%Z.
Proof.
  intros Hlt seconds. unfold formatElapsedTime.
  set (ms := (now - startTime)%Z) in *. assert (Hms : (ms < 0)%Z) by (unfold ms; lia).
  assert (Hneg : forall unit modulus, (0 < unit)%Z -> (0 < modulus)%Z ->
            (- modulus <= floor_mod ms unit modulus <= 0)%Z).
  { intros unit modulus Hu Hm. unfold floor_mod.
    assert (Hr : (- (unit * modulus) < Z.rem ms (unit * modulus) <= 0)%Z)
      by (apply Z.rem_bound_pos_neg; nia).
    split.
    - apply Z.div_le_lower_bound; nia.
    - apply Z.div_le_upper_bound; lia. }
  split; [|apply (Hneg 1000 60)%Z; lia].
  pose proof (Hneg (1000 * 60) 60)%Z as Hmin.
  pose proof (Hneg (1000 * 60 * 60) 24)%Z as Hh.
  assert (Hdays : (ms / (1000 * 60 * 60 * 24) < 0)%Z)
    by (apply Z.div_lt_upper_bound; lia).
  rewrite (proj2 (Z.ltb_ge 0 (floor_mod ms (1000 * 60) 60))) by lia.
  rewrite (proj2 (Z.ltb_ge 0 (floor_mod ms (1000 * 60 * 60) 24))) by lia.
  rewrite (proj2 (Z.ltb_ge 0 (ms / (1000 * 60 * 60 * 24)))) by lia.
  done.
Qed.

(** ** The report on one file *)

Section Reports.

Context (E : Env).

Lemma optimize_step_view p extension c d :
  d !! p = Some c ->
  exists x d2 o2 l2,
    optimize_step E p extension d = mkRes x d2 o2 l2
    /\ Forall body_line l2
    /\ is_Some (d2 !! p)
    /\ ((x = Ret tt) \/ (exists e, x = Throw e /\ l2 = [])).
Proof.
  intros Hd. rewrite (optimize_step_run E p extension c d Hd).
  destruct (Str.includes _ extension); [|eexists _, _, _, _; eauto 10].
  destruct (0 <? _)%nat; [|eexists _, _, _, _; eauto 10].
  destruct (run_plugins E _ c) as [e|buf]; [eexists _, _, _, _; eauto 10|].
  destruct (length buf <? length c)%nat eqn:Hlt; eexists _, _, _, _;
    (split; [reflexivity|]); (split; [|split; [|by left]]); repeat constructor.
  - by apply Nat.ltb_lt.
  - by rewrite lookup_insert_eq.
  - eauto.
Qed.

Lemma body_line_width md : body_line (width_line md).
Proof. unfold width_line. by destruct (js_le _ _). Qed.

Lemma body_probe_fails p e d :
  recognized p ->
  sharp_probe E p d = mkRes (Throw e) d [OpMetadata p] [] ->
  processImage_body E p d = mkRes (Throw e) d [OpMetadata p] [LProcessing p].
Proof.
  intros Hrec Hp. apply includes_elem_of in Hrec.
  unfold processImage_body. rewrite Hrec. cbn [negb]. mrun.
  erewrite bind_of_Throw by exact Hp. reflexivity.
Qed.

Lemma resize_step_view p md c d :
  d !! p = Some c ->
  exists x d1 o1,
    resize_step E p md d = mkRes x d1 o1 []
    /\ is_Some (d1 !! p)
    /\ (x = Ret tt \/ exists e, x = Throw e).
Proof.
  intros Hd. destruct (js_gt (width md) MAX_WIDTH) eqn:Hw.
  - destruct (sharp_resize E c MAX_WIDTH) as [data|partial e] eqn:Hr.
    + eexists _, _, _.
      split; [by apply (resize_step_written E p md c data)|].
      rewrite lookup_insert_eq. eauto.
    + eexists _, _, _.
      split; [by apply (resize_step_failed E p md c partial e)|].
      split; [|eauto].
      destruct partial; [|by rewrite Hd].
      rewrite lookup_insert_ne by apply temp_of_neq. by rewrite Hd.
  - eexists _, _, _. split; [by apply resize_step_skip|]. rewrite Hd. eauto.
Qed.

(** The body of [processImage] on a recognized file: the opening line,
    lines of the body and, when it returns, the completion line; the file
    is still there. *)
Lemma body_view p d :
  recognized p ->
  exists x d' o mid,
    processImage_body E p d = mkRes x d' o (LProcessing p :: mid)
    /\ (is_Some (d !! p) -> is_Some (d' !! p))
    /\ ((x = Ret tt /\ exists mid', mid = mid' ++ [LCompleted p] /\ Forall body_line mid')
        \/ (exists e, x = Throw e /\ Forall body_line mid)).
Proof.
  intros Hrec.
  pose proof (sharp_probe_run E p d) as Hp.
  destruct (d !! p) as [c|] eqn:Hd.
  2:{ eexists _, _, _, []. split; [by apply body_probe_fails|].
      split; [by intros []|]. right. eauto. }
  destruct (sharp_metadata E c) as [e|md] eqn:Hmd.
  { eexists _, _, _, []. split; [by apply body_probe_fails|].
    split; [by rewrite Hd|]. right. eauto. }
  rewrite (body_after_probe E p c md d Hrec Hd Hmd).
  destruct (resize_step_view p md c d Hd) as (x1 & d1 & o1 & Hr & [c1 Hd1] & Hx1).
  destruct Hx1 as [->|[e ->]].
  - rewrite (bind_of_Ret _ _ _ _ _ _ _ Hr).
    destruct (optimize_step_view p (Str.toLowerCase (Str.extname p)) c1 d1 Hd1)
      as (x & d2 & o2 & l2 & Ho & Hl2 & Hd2 & Hx).
    destruct Hx as [->|(e & -> & ->)].
    + rewrite (bind_of_Ret _ _ _ _ _ _ _ Ho).
      eexists _, _, _, _. split; [mdone|]. split; [done|]. left. split; [done|].
      exists (width_line md :: l2). split; [done|].
      constructor; [apply body_line_width|done].
    + rewrite (bind_of_Throw _ _ _ _ _ _ _ Ho).
      eexists _, _, _, _. split; [mdone|]. split; [done|]. right. exists e.
      split; [done|]. constructor; [apply body_line_width|done].
  - rewrite (bind_of_Throw _ _ _ _ _ _ _ Hr).
    eexists _, _, _, _. split; [mdone|]. split; [eauto|]. right. exists e.
    split; [done|]. constructor; [apply body_line_width|done].
Qed.

(** The same for [processImage]: one closing line, for the completion or
    for the error. *)
Lemma processImage_view p d :
  recognized p ->
  exists mid last,
    out (processImage E p d) = LProcessing p :: mid ++ [last]
    /\ Forall body_line mid
    /\ (last = LCompleted p \/ exists msg, last = LErrorProcessing p msg)
    /\ (is_Some (d !! p) -> is_Some (disk (processImage E p d) !! p)).
Proof.
  intros Hrec.
  destruct (body_view p d Hrec) as (x & d' & o & mid & Hb & Hd' & Hx).
  unfold processImage.
  destruct Hx as [(-> & mid' & -> & Hmid)|(e & -> & Hmid)].
  - rewrite (try_catch_of_Ret _ _ _ _ _ _ _ Hb). cbn [out disk].
    exists mid', (LCompleted p). eauto.
  - rewrite (try_catch_of_Throw _ _ _ _ _ _ _ Hb). cbn [out disk emit console].
    exists mid, (LErrorProcessing p (message e)). eauto 10.
Qed.

Lemma body_line_transformer l : body_line l -> transformer_line l = true.
Proof. by destruct l. Qed.

Lemma body_line_closing l : body_line l -> closing_path l = None.
Proof. by destruct l. Qed.

Lemma processImage_lines p d :
  Forall (fun l => transformer_line l = true) (out (processImage E p d)).
Proof.
  destruct (decide (recognized p)) as [Hrec|Hrec].
  - destruct (processImage_view p d Hrec) as (mid & last & -> & Hmid & Hlast & _).
    constructor; [done|]. apply Forall_app. split.
    + eapply Forall_impl; [exact Hmid|]. apply body_line_transformer.
    + constructor; [|constructor]. by destruct Hlast as [->|[msg ->]].
  - rewrite (processImage_unrecognized E p d Hrec). constructor.
Qed.

Lemma processImage_keeps p d :
  is_Some (d !! p) -> is_Some (disk (processImage E p d) !! p).
Proof.
  destruct (decide (recognized p)) as [Hrec|Hrec].
  - by destruct (processImage_view p d Hrec) as (mid & last & _ & _ & _ & H).
  - by rewrite (processImage_unrecognized E p d Hrec).
Qed.

Lemma run_files_lines files d :
  Forall (fun l => transformer_line l = true) (out (run_files E files d)).
Proof.
  revert d. induction files as [|p rest IH]; intros d.
  - constructor.
  - rewrite run_files_cons. cbn [emit out]. apply Forall_app.
    split; [apply processImage_lines|apply IH].
Qed.

End Reports.

(** ** One file, case by case *)

Section Scenarios.

Context (E : Env).

(** [processImage] once the probe and the resize step have succeeded. *)
Lemma processImage_after_resize p c md d1 o1 c1 d :
  recognized p -> d !! p = Some c -> sharp_metadata E c = inr md ->
  resize_step E p md d = mkRes (Ret tt) d1 o1 [] -> d1 !! p = Some c1 ->
  let extension := Str.toLowerCase (Str.extname p) in
  processImage E p d =
  if Str.includes [".jpg"; ".jpeg"; ".png"; ".gif"; ".svg"] extension then
    match run_plugins E (plugins_for extension) c1 with
    | inl e =>
        mkRes (Ret tt) d1
          (OpMetadata p :: o1
           ++ [OpStat p; OpReadFile p; OpImagemin (plugins_for extension)])
          [LProcessing p; width_line md; LErrorProcessing p (message e)]
    | inr buf =>
        if (length buf <? length c1)%nat then
          mkRes (Ret tt) (<[p := buf]> d1)
            (OpMetadata p :: o1
             ++ [OpStat p; OpReadFile p; OpImagemin (plugins_for extension);
                 OpWriteFile p; OpStat p])
            [LProcessing p; width_line md; LOptimized (length c1) (length buf);
             LCompleted p]
        else
          mkRes (Ret tt) d1
            (OpMetadata p :: o1
             ++ [OpStat p; OpReadFile p; OpImagemin (plugins_for extension)])
            [LProcessing p; width_line md; LKeepingOriginal; LCompleted p]
    end
  else
    mkRes (Ret tt) d1 (OpMetadata p :: o1) [LProcessing p; width_line md; LCompleted p].
Proof.
  intros Hrec Hd Hmd Hr Hd1 extension.
  pose proof (optimize_step_run E p extension c1 d1 Hd1) as Ho.
  destruct (Str.includes _ extension) eqn:Hinc.
  - rewrite (plugins_for_nonempty _ Hinc) in Ho.
    destruct (run_plugins E _ c1) as [e|buf].
    + by rewrite (processImage_optimize_fails E p c md d1 o1 _ _ _ _ d Hrec Hd Hmd Hr Ho).
    + destruct (length buf <? length c1)%nat;
        by rewrite (processImage_optimize_done E p c md d1 o1 _ _ _ d Hrec Hd Hmd Hr Ho).
  - rewrite (processImage_optimize_done E p c md d1 o1 _ _ _ d Hrec Hd Hmd Hr Ho).
    by rewrite app_nil_r.
Qed.

(** X3.  A recognized file that is missing, or that the probe rejects, is
    left alone: the probe is the only call, the disk is unchanged, and the
    report is the opening line followed by the error. *)
Theorem unreadable_image_is_left_alone p d :
  recognized p -> d !! p = None \/ corrupt E d p ->
  exists msg,
    processImage E p d =
    mkRes (Ret tt) d [OpMetadata p] [LProcessing p; LErrorProcessing p msg].
Proof.
  intros Hrec [Hd|(c & e & Hd & Hmd)].
  - eexists. apply processImage_probe_fails; [done|].
    by rewrite sharp_probe_run, Hd.
  - exists (message e). by apply (corrupt_run E p c e).
Qed.

(** X4.  A failure of the compressor after a resize does not undo the
    resize: the file is left with the resized bytes, the temporary path is
    free, the error is reported and no completion line is printed. *)
Theorem compressor_failure_keeps_the_resize p c md data e d :
  recognized p -> d !! p = Some c -> sharp_metadata E c = inr md ->
  js_gt (width md) MAX_WIDTH = true ->
  sharp_resize E c MAX_WIDTH = Written data ->
  let extension := Str.toLowerCase (Str.extname p) in
  Str.includes [".jpg"; ".jpeg"; ".png"; ".gif"; ".svg"] extension = true ->
  run_plugins E (plugins_for extension) data = inl e ->
  processImage E p d =
  mkRes (Ret tt) (<[p := data]> (delete (temp_of p) d))
    [OpMetadata p; OpToFile p (temp_of p); OpUnlink p; OpRename (temp_of p) p;
     OpStat p; OpReadFile p; OpImagemin (plugins_for extension)]
    [LProcessing p; LResizing (width md); LErrorProcessing p (message e)].
Proof.
  intros Hrec Hd Hmd Hw Hr extension Hinc He.
  pose proof (resize_step_written E p md c data d Hw Hd Hr) as Hstep.
  rewrite resized_disk in Hstep.
  rewrite (processImage_after_resize p c md _ _ data d Hrec Hd Hmd Hstep)
    by apply lookup_insert_eq.
  fold extension. rewrite Hinc, He. unfold width_line.
  destruct (width md) as [w|]; [|done]. cbn [js_gt js_le] in *.
  apply N.ltb_lt in Hw. by rewrite (proj2 (N.leb_gt _ _)) by done.
Qed.

Lemma after_resize_shape p c md d1 o1 c1 d :
  recognized p -> d !! p = Some c -> sharp_metadata E c = inr md ->
  resize_step E p md d = mkRes (Ret tt) d1 o1 [] -> d1 !! p = Some c1 ->
  exists o2 rest,
    ops (processImage E p d) = OpMetadata p :: o1 ++ o2
    /\ out (processImage E p d) = LProcessing p :: width_line md :: rest
    /\ Forall (fun o => is_resize_op o = false) o2
    /\ Forall (fun l => forall w, l <> LResizing w) rest
    /\ (List.filter is_imagemin_op o2 = []
        \/ Str.includes [".jpg"; ".jpeg"; ".png"; ".gif"; ".svg"]
             (Str.toLowerCase (Str.extname p)) = true
           /\ List.filter is_imagemin_op o2
              = [OpImagemin (plugins_for (Str.toLowerCase (Str.extname p)))]).
Proof.
  intros Hrec Hd Hmd Hstep Hd1.
  rewrite (processImage_after_resize p c md d1 o1 c1 d Hrec Hd Hmd Hstep Hd1).
  destruct (Str.includes _ _);
    [destruct (run_plugins E _ c1) as [e|buf];
       [|destruct (length buf <? length c1)%nat]|];
    cbn [ops out];
    [eexists _, _; (split; [reflexivity|]); (split; [reflexivity|]);
     (split; [by repeat constructor|]); (split; [by repeat constructor|]);
     right; done..|].
  exists [], [LCompleted p]. rewrite app_nil_r. split; [done|]. split; [reflexivity|].
  split; [constructor|]. split; [by repeat constructor|]. by left.
Qed.

(** The calls and the lines of [processImage] after a successful probe. *)
Lemma processImage_after_probe p c md d :
  recognized p -> d !! p = Some c -> sharp_metadata E c = inr md ->
  exists o1 o2 rest,
    ops (processImage E p d) = OpMetadata p :: o1 ++ o2
    /\ out (processImage E p d) = LProcessing p :: width_line md :: rest
    /\ (if js_gt (width md) MAX_WIDTH
        then exists o, o1 = OpToFile p (temp_of p) :: o else o1 = [])
    /\ Forall (fun o => is_resize_op o = false) o2
    /\ Forall (fun l => forall w, l <> LResizing w) rest
    /\ List.filter is_imagemin_op o1 = []
    /\ (List.filter is_imagemin_op o2 = []
        \/ Str.includes [".jpg"; ".jpeg"; ".png"; ".gif"; ".svg"]
             (Str.toLowerCase (Str.extname p)) = true
           /\ List.filter is_imagemin_op o2
              = [OpImagemin (plugins_for (Str.toLowerCase (Str.extname p)))]).
Proof.
  intros Hrec Hd Hmd.
  destruct (js_gt (width md) MAX_WIDTH) eqn:Hw.
  - destruct (sharp_resize E c MAX_WIDTH) as [data|partial e] eqn:Hr.
    + pose proof (resize_step_written E p md c data d Hw Hd Hr) as Hstep.
      destruct (after_resize_shape p c md _ _ data d Hrec Hd Hmd Hstep)
        as (o2 & rest & H1 & H2 & H3 & H4 & H5); [apply lookup_insert_eq|].
      eexists _, o2, rest. split; [exact H1|]. split; [exact H2|].
      split; [by eexists|]. done.
    + pose proof (resize_step_failed E p md c partial e d Hw Hd Hr) as Hstep.
      rewrite (processImage_resize_fails E p c md e _ _ d Hrec Hd Hmd Hstep).
      cbn [ops out]. exists [OpToFile p (temp_of p)], [], [LErrorProcessing p (message e)].
      split; [done|]. split; [reflexivity|]. split; [by eexists|].
      split; [constructor|]. split; [by repeat constructor|]. split; [done|by left].
  - pose proof (resize_step_skip E p md d Hw) as Hstep.
    destruct (after_resize_shape p c md _ _ c d Hrec Hd Hmd Hstep Hd)
      as (o2 & rest & H1 & H2 & H3 & H4 & H5).
    by exists [], o2, rest.
Qed.

(** X5.  After a successful probe, the resize is attempted exactly when the
    width is a number above [MAX_WIDTH], whereas the line that announces a
    resize is printed exactly when the width is not a number up to
    [MAX_WIDTH]: for a file whose width the probe leaves undefined the log
    says that the file is being resized, and no resize is attempted. *)
Theorem resize_is_announced_even_when_not_attempted p c md d :
  recognized p -> d !! p = Some c -> sharp_metadata E c = inr md ->
  let r := processImage E p d in
  (OpToFile p (temp_of p) ∈ ops r
   <-> exists w, width md = Some w /\ (MAX_WIDTH < w)%N)
  /\ ((exists w, LResizing w ∈ out r)
      <-> width md = None \/ exists w, width md = Some w /\ (MAX_WIDTH < w)%N)
  /\ (width md = None ->
      LResizing None ∈ out r /\ List.filter is_resize_op (ops r) = []).
Proof.
  intros Hrec Hd Hmd r. subst r.
  destruct (processImage_after_probe p c md d Hrec Hd Hmd)
    as (o1 & o2 & rest & -> & -> & Ho1 & Ho2 & Hrest & _).
  assert (Hno : forall o, is_resize_op o = true -> o ∉ o2).
  { intros o Ho Hin. rewrite Forall_forall in Ho2. apply Ho2 in Hin. congruence. }
  assert (Hnl : forall w, LResizing w ∉ rest).
  { intros w Hin. rewrite Forall_forall in Hrest. by apply (Hrest _ Hin w). }
  split; [|split].
  - destruct (width md) as [w|] eqn:Hwd; cbn [js_gt] in Ho1.
    + destruct (MAX_WIDTH <? w)%N eqn:Hlt.
      * destruct Ho1 as [o ->]. split; [|intros _; by repeat constructor].
        intros _. exists w. by apply N.ltb_lt in Hlt.
      * subst o1. cbn [app]. split.
        -- intros H. apply elem_of_cons in H as [H|H]; [discriminate|].
           by apply Hno in H.
        -- intros (w' & [= <-] & Hw'). apply N.ltb_ge in Hlt. lia.
    + subst o1. cbn [app]. split.
      * intros H. apply elem_of_cons in H as [H|H]; [discriminate|].
        by apply Hno in H.
      * by intros (w' & ? & _).
  - unfold width_line. destruct (width md) as [w|] eqn:Hwd; cbn [js_le].
    + destruct (w <=? MAX_WIDTH)%N eqn:Hle.
      * split.
        -- intros [w' H]. apply elem_of_cons in H as [H|H]; [discriminate|].
           apply elem_of_cons in H as [H|H]; [discriminate|]. by apply Hnl in H.
        -- apply N.leb_le in Hle. intros [?|(w' & [= <-] & Hw')]; [done|lia].
      * split; [|intros _; exists (Some w); by repeat constructor].
        intros _. right. exists w. by apply N.leb_gt in Hle.
    + split; [by left|]. intros _. exists None. by repeat constructor.
  - intros Hwd. unfold width_line. rewrite Hwd in *. cbn [js_le js_gt] in *.
    subst o1. split; [by repeat constructor|].
    cbn [app List.filter is_resize_op]. apply filter_none. done.
Qed.

Lemma plugins_for_table extension :
  Str.includes [".jpg"; ".jpeg"; ".png"; ".gif"; ".svg"] extension = true ->
  exists plugin,
    plugins_for extension = [plugin]
    /\ ((extension = ".jpg" \/ extension = ".jpeg") /\ plugin = imageminMozjpeg 80
        \/ extension = ".png" /\ plugin = imageminPngquant 65 80
        \/ extension = ".gif" /\ plugin = imageminGifsicle
        \/ extension = ".svg" /\ plugin = imageminSvgo).
Proof.
  intros H%includes_elem_of.
  repeat (apply elem_of_cons in H as [->|H]; [eexists; split; [reflexivity|tauto]|]).
  by apply elem_of_nil in H.
Qed.

(** X6.  [processImage] calls imagemin at most once, and then with exactly
    one plugin, the one of the file's extension: mozjpeg at quality 80 for
    [.jpg] and [.jpeg], pngquant at quality 0.65 to 0.8 for [.png],
    gifsicle for [.gif], svgo for [.svg]. *)
Theorem one_compressor_per_file p d :
  let extension := Str.toLowerCase (Str.extname p) in
  let calls := List.filter is_imagemin_op (ops (processImage E p d)) in
  calls = []
  \/ exists plugin,
       calls = [OpImagemin [plugin]]
       /\ ((extension = ".jpg" \/ extension = ".jpeg") /\ plugin = imageminMozjpeg 80
           \/ extension = ".png" /\ plugin = imageminPngquant 65 80
           \/ extension = ".gif" /\ plugin = imageminGifsicle
           \/ extension = ".svg" /\ plugin = imageminSvgo).
Proof.
  intros extension calls. subst calls.
  destruct (decide (recognized p)) as [Hrec|Hrec];
    [|left; by rewrite (processImage_unrecognized E p d Hrec)].
  destruct (d !! p) as [c|] eqn:Hd.
  2:{ left. erewrite processImage_probe_fails; [done|done|].
      by rewrite sharp_probe_run, Hd. }
  destruct (sharp_metadata E c) as [e|md] eqn:Hmd.
  { left. by rewrite (corrupt_run E p c e d Hrec Hd Hmd). }
  destruct (processImage_after_probe p c md d Hrec Hd Hmd)
    as (o1 & o2 & rest & -> & _ & _ & _ & _ & Ho1 & Ho2).
  cbn [List.filter is_imagemin_op]. rewrite List.filter_app, Ho1. cbn [app].
  destruct Ho2 as [->|[Hinc ->]]; [by left|]. right.
  destruct (plugins_for_table _ Hinc) as (plugin & -> & Htable). by exists plugin.
Qed.

(** X7.  The report on a recognized file opens with the line that names it
    and closes with exactly one line, its completion or its error; no such
    line occurs in between, and a line in between that reports a
    compression carries a new size smaller than the original one. *)
Theorem a_report_opens_and_closes_once p d :
  recognized p ->
  exists mid last,
    out (processImage E p d) = LProcessing p :: mid ++ [last]
    /\ Forall body_line mid
    /\ (last = LCompleted p \/ exists msg, last = LErrorProcessing p msg).
Proof.
  intros Hrec.
  destruct (processImage_view E p d Hrec) as (mid & last & H1 & H2 & H3 & _).
  by exists mid, last.
Qed.

End Scenarios.

(** ** What the loops print *)

Section Runs.

Context (E : Env).

(** The batched loop against the bare sequence of files, for any reading of
    the lines that erases what the orchestrator prints. *)
Lemma batches_run_files {X} (g : LogLine -> list X) files d :
  (forall a b, g (LProgressRunning a b) = []) ->
  (forall a b, g (LProgress a b) = []) ->
  g LEstimatedCompletion = [] ->
  (forall a b, g (LBatch a b) = []) ->
  flat_map g (out (WorklistScript.batches E files 0 0 d))
  = flat_map g (out (run_files E files d)).
Proof.
  intros H1 H2 Hest H3.
  destruct (batches_vs_all E g files) with (n := length files) (i := 0)
    (c := 0) (d := d) as [_ He];
    [intros; by rewrite H1, H2|done|done|lia|].
  destruct (process_all_effects E g files (length files) 0 d) as [_ He']; [done|].
  rewrite drop_0 in *.
  by destruct (same_effects_trans _ _ _ _ He He') as (_ & _ & Hout).
Qed.

Lemma closing_of_report p d :
  recognized p -> omap closing_path (out (processImage E p d)) = [p].
Proof.
  intros Hrec.
  destruct (processImage_view E p d Hrec) as (mid & last & -> & Hmid & Hlast & _).
  rewrite omap_flat_map. cbn [flat_map closing_path option_list app].
  rewrite flat_map_app. rewrite (flat_map_nil_all _ mid).
  2:{ eapply Forall_impl; [exact Hmid|]. intros l Hl. by rewrite body_line_closing. }
  destruct Hlast as [->|[msg ->]]; reflexivity.
Qed.

Lemma closing_of_run files d :
  (forall p, p ∈ files -> recognized p) ->
  omap closing_path (out (run_files E files d)) = files.
Proof.
  revert d. induction files as [|p rest IH]; intros d Hrec; [done|].
  rewrite run_files_cons. cbn [emit out]. rewrite omap_app.
  rewrite closing_of_report by (apply Hrec; constructor).
  rewrite IH; [done|]. intros q Hq. apply Hrec. by constructor.
Qed.

(** X8.  Every file of the list gets exactly one closing line, completion
    or error, and the closing lines come in the order of the list: no file
    is skipped and none is reported twice, whichever loop runs. *)
Theorem every_file_is_accounted_for files d :
  (forall p, p ∈ files -> recognized p) ->
  omap closing_path (out (WorklistScript.batches E files 0 0 d)) = files
  /\ omap closing_path
       (out (GlobScript.process_all E files (length files) 0 d)) = files.
Proof.
  intros Hrec. split.
  - etrans; [|exact (closing_of_run files d Hrec)].
    rewrite !omap_flat_map. by apply batches_run_files.
  - etrans; [|exact (closing_of_run files d Hrec)].
    rewrite !omap_flat_map.
    destruct (process_all_effects E (fun a => option_list (closing_path a))
                files (length files) 0 d) as [_ (_ & _ & Hout)]; [done|].
    exact Hout.
Qed.

Lemma progress_of_transformer l :
  transformer_line l = true -> progress_of l = None.
Proof. by destruct l. Qed.

Lemma progress_of_process_all files total c d :
  omap progress_of (out (GlobScript.process_all E files total c d))
  = map (fun k => (k, total)) (seq (S c) (length files)).
Proof.
  revert c d. induction files as [|p rest IH]; intros c d; [done|].
  rewrite process_all_cons. cbn [emit out]. rewrite !omap_app, IH.
  rewrite (omap_flat_map _ (out (processImage E p d))), flat_map_nil_all.
  2:{ eapply Forall_impl; [apply processImage_lines|].
      intros l Hl. by rewrite progress_of_transformer. }
  reflexivity.
Qed.

(** X9.  The progress lines of a run over [n] files are [1/n], [2/n], ...,
    [n/n], one per file and in this order, in both loops: a file whose
    processing fails is counted like any other. *)
Theorem progress_counts_every_file files d :
  let n := length files in
  omap progress_of (out (WorklistScript.batches E files 0 0 d))
    = map (fun k => (k, n)) (seq 1 n)
  /\ omap progress_of (out (GlobScript.process_all E files n 0 d))
    = map (fun k => (k, n)) (seq 1 n).
Proof.
  intros n. subst n. split; [|apply progress_of_process_all].
  etrans; [|exact (progress_of_process_all files (length files) 0 d)].
  rewrite !omap_flat_map.
  destruct (batches_vs_all E (fun a => option_list (progress_of a)) files)
    with (n := length files) (i := 0) (c := 0) (d := d) as [_ (_ & _ & Hout)];
    [done|done|done|lia|].
  by rewrite drop_0 in Hout.
Qed.

Lemma estimate_lines_cases total k :
  estimate_lines E total k =
  if (10 <? k)%nat && WorklistScript.percent_positive k total
     && (0 <? elapsed_ms E k)%N && (0 <? total - k)%nat
  then [LEstimatedCompletion] else [].
Proof.
  unfold estimate_lines, WorklistScript.estimate.
  destruct ((10 <? k)%nat && WorklistScript.percent_positive k total); [|done].
  cbn [andb]. by destruct ((0 <? elapsed_ms E k)%N && (0 <? total - k)%nat).
Qed.

Lemma filter_estimate_lines total k :
  List.filter is_estimate_line (estimate_lines E total k) = estimate_lines E total k.
Proof. rewrite estimate_lines_cases. by destruct (_ && _). Qed.

Lemma pace_of_report p d :
  List.filter is_pace_line (out (processImage E p d)) = [].
Proof.
  apply filter_none. eapply Forall_impl; [apply processImage_lines|].
  intros l Hl. by destruct l.
Qed.

Lemma estimate_of_report p d :
  List.filter is_estimate_line (out (processImage E p d)) = [].
Proof.
  apply filter_none. eapply Forall_impl; [apply processImage_lines|].
  intros l Hl. by destruct l.
Qed.

Lemma pace_of_process_batch batch total c d :
  List.filter is_pace_line (out (WorklistScript.process_batch E batch total c d))
  = map (fun j => LProgressRunning (j + 1) total) (seq c (length batch)).
Proof.
  revert c d. induction batch as [|p rest IH]; intros c d; [done|].
  rewrite process_batch_cons. cbn [emit out].
  rewrite !List.filter_app, pace_of_report, IH. cbn [List.filter is_pace_line app].
  rewrite filter_none.
  2:{ rewrite estimate_lines_cases. destruct (_ && _); repeat constructor. }
  cbn [length seq map app]. by rewrite Nat.add_1_r.
Qed.

Lemma estimates_of_process_batch batch total c d :
  List.filter is_estimate_line (out (WorklistScript.process_batch E batch total c d))
  = flat_map (estimate_lines E total) (seq (S c) (length batch)).
Proof.
  revert c d. induction batch as [|p rest IH]; intros c d; [done|].
  rewrite process_batch_cons. cbn [emit out].
  rewrite !List.filter_app, estimate_of_report, IH.
  cbn [List.filter is_estimate_line app length seq flat_map].
  by rewrite filter_estimate_lines.
Qed.

Lemma ceil_div_spec n k :
  (k < WorklistScript.ceil_div n WorklistScript.batchSize <-> 10 * k < n).
Proof.
  unfold WorklistScript.ceil_div, WorklistScript.batchSize.
  pose proof (Nat.div_mod_eq (n + (10 - 1)) 10).
  pose proof (Nat.mod_upper_bound (n + (10 - 1)) 10). lia.
Qed.

(** One turn of the loop over the batches. *)
Lemma batches_out_step files k c d :
  10 * k < length files ->
  let batch := take WorklistScript.batchSize (drop (10 * k) files) in
  let r := WorklistScript.process_batch E batch (length files) c d in
  out (WorklistScript.batches E files (10 * k) c d)
  = LBatch (k + 1) (WorklistScript.ceil_div (length files) WorklistScript.batchSize)
    :: out r ++ out (WorklistScript.batches E files (10 * (k + 1))
                       (c + min 10 (length files - 10 * k)) (disk r))
  /\ length batch = min 10 (length files - 10 * k).
Proof.
  intros Hlt batch r.
  assert (Hlen : length batch = 10 `min` (length files - 10 * k)).
  { unfold batch, WorklistScript.batchSize. by rewrite length_take, length_drop. }
  split; [|done].
  rewrite batches_unfold. destruct (lt_dec _ _) as [_|]; [|lia].
  destruct (process_batch_vs_all E (keep transformer_line) batch (length files)
              c d) as [Ho _]; [done..|].
  mrun. fold batch. rewrite (bind_of_outcome_Ret _ _ _ _ Ho). fold r.
  cbn [emit out app]. f_equal.
  - f_equal. unfold WorklistScript.batchSize.
    rewrite Nat.mul_comm, Nat.div_mul by lia. done.
  - f_equal. f_equal.
    replace (10 * k + WorklistScript.batchSize) with (10 * (k + 1))
      by (unfold WorklistScript.batchSize; lia).
    by rewrite Hlen.
Qed.

Lemma batches_out_end files i c d :
  length files <= i -> out (WorklistScript.batches E files i c d) = [].
Proof.
  intros Hge. rewrite batches_unfold. destruct (lt_dec _ _); [lia|done].
Qed.

Lemma pace_of_batches files : forall fuel k c d,
  length files - 10 * k <= fuel -> (10 * k < length files -> c = 10 * k) ->
  List.filter is_pace_line (out (WorklistScript.batches E files (10 * k) c d))
  = flat_map (pace_of_batch (length files))
      (seq k (WorklistScript.ceil_div (length files) WorklistScript.batchSize - k)).
Proof.
  induction fuel as [|fuel IH]; intros k c d Hfuel Hc;
    destruct (decide (10 * k < length files)) as [Hlt|Hge]; try lia.
  - rewrite batches_out_end by lia.
    pose proof (ceil_div_spec (length files) k).
    by replace (_ - k) with 0 by lia.
  - destruct (batches_out_step files k c d Hlt) as [-> Hlen].
    pose proof (proj2 (ceil_div_spec (length files) k) Hlt).
    replace (WorklistScript.ceil_div (length files) WorklistScript.batchSize - k)
      with (S (WorklistScript.ceil_div (length files) WorklistScript.batchSize - (k + 1)))
      by lia.
    cbn [seq flat_map List.filter is_pace_line].
    rewrite List.filter_app, pace_of_process_batch, Hlen.
    rewrite (IH (k + 1)); [|lia|lia].
    rewrite (Hc Hlt). unfold pace_of_batch at 2. cbn [app].
    by replace (S k) with (k + 1) by lia.
  - rewrite batches_out_end by lia.
    pose proof (ceil_div_spec (length files) k).
    by replace (_ - k) with 0 by lia.
Qed.

(** X10.  The pace of the batched loop: for each batch in turn its header,
    numbered from 1 to the number of batches, followed by the progress
    lines of its files, which are ten except in the last batch. *)
Theorem batches_of_ten files d :
  List.filter is_pace_line (out (WorklistScript.batches E files 0 0 d))
  = flat_map (pace_of_batch (length files))
      (seq 0 (WorklistScript.ceil_div (length files) WorklistScript.batchSize)).
Proof.
  pose proof (pace_of_batches files (length files) 0 0 d) as H.
  rewrite Nat.mul_0_r, !Nat.sub_0_r in H. apply H; lia.
Qed.

Lemma estimates_of_batches files : forall fuel k c d,
  length files - 10 * k <= fuel -> (10 * k < length files -> c = 10 * k) ->
  List.filter is_estimate_line (out (WorklistScript.batches E files (10 * k) c d))
  = flat_map (estimate_lines E (length files))
      (seq (10 * k + 1) (length files - 10 * k)).
Proof.
  induction fuel as [|fuel IH]; intros k c d Hfuel Hc;
    destruct (decide (10 * k < length files)) as [Hlt|Hge]; try lia.
  - rewrite batches_out_end by lia. by replace (_ - _) with 0 by lia.
  - destruct (batches_out_step files k c d Hlt) as [-> Hlen].
    cbn [List.filter is_estimate_line].
    rewrite List.filter_app, estimates_of_process_batch, Hlen.
    rewrite (IH (k + 1)); [|lia|lia].
    rewrite (Hc Hlt), <- flat_map_app. f_equal.
    transitivity (seq (10 * k + 1)
                    (10 `min` (length files - 10 * k) + (length files - 10 * (k + 1))));
      [|f_equal; lia].
    rewrite seq_app. f_equal; [f_equal; lia|].
    destruct (le_lt_dec 10 (length files - 10 * k)) as [Hfull|Hlast].
    + f_equal. lia.
    + by replace (length files - 10 * (k + 1)) with 0 by lia.
  - rewrite batches_out_end by lia. by replace (_ - _) with 0 by lia.
Qed.

(** X11.  An estimate of the completion time is printed after the [k]-th
    file exactly when more than ten files are done, files remain, the
    share of files done rounds to a positive percentage and the clock has
    advanced since the start: never in a run of eleven files or fewer, and
    never after the last file. *)
Theorem estimate_needs_eleven_files_and_a_rest files d :
  let n := length files in
  LEstimatedCompletion ∈ out (WorklistScript.batches E files 0 0 d)
  <-> exists k, 10 < k < n /\ n <= 200 * k /\ (0 < elapsed_ms E k)%N.
Proof.
  intros n. subst n.
  assert (Hin : forall l, LEstimatedCompletion ∈ l
                          <-> LEstimatedCompletion ∈ List.filter is_estimate_line l).
  { intros l. rewrite !list_elem_of_In, filter_In.
    split; [by split|by intros [? _]]. }
  pose proof (estimates_of_batches files (length files) 0 0 d) as H.
  rewrite Nat.mul_0_r, !Nat.sub_0_r in H.
  rewrite Hin, H by lia. clear Hin.
  rewrite elem_of_flat_map.
  split.
  - intros (k & Hk & Hl). exists k.
    apply elem_of_seq in Hk. rewrite estimate_lines_cases in Hl.
    destruct (_ && _) eqn:Hc; [|by apply elem_of_nil in Hl].
    apply andb_prop in Hc as [Hc Hrest]. apply andb_prop in Hc as [Hc Hms].
    apply andb_prop in Hc as [Hten Hpct].
    unfold WorklistScript.percent_positive in Hpct.
    apply Nat.ltb_lt in Hten, Hrest. apply Nat.leb_le in Hpct.
    apply N.ltb_lt in Hms. lia.
  - intros (k & Hk & Hn & Hms). exists k. split; [apply elem_of_seq; lia|].
    rewrite estimate_lines_cases. unfold WorklistScript.percent_positive.
    rewrite (proj2 (Nat.ltb_lt 10 k)) by lia.
    rewrite (proj2 (Nat.leb_le _ _) Hn), (proj2 (N.ltb_lt _ _) Hms).
    rewrite (proj2 (Nat.ltb_lt 0 (length files - k))) by lia.
    constructor.
Qed.

End Runs.

(** ** The scripts from end to end *)

Section Scripts.

Context (E : Env).

Lemma listing_errors_lines n : forall dir,
  Forall (fun l => exists dir msg, l = LErrorReadingDirectory dir msg)
    (listing_errors dir n).
Proof.
  induction n as [| |e|entries IH] using Node_nested_ind; intros dir;
    try (repeat constructor; by eexists _, _).
  revert dir. induction IH as [|[name c] l Hc _ IHl]; intros dir.
  - constructor.
  - rewrite listing_errors_Dir_cons. apply Forall_app. split; [|apply IHl].
    destruct (isDirectory c); [apply Hc|constructor].
Qed.

(** What discovery prints: lines on directories that cannot be listed. *)
Lemma walk_log_lines :
  Forall (fun l => exists dir msg, l = LErrorReadingDirectory dir msg)
    (snd (walk [(".", root E)] [] [])).
Proof.
  destruct (walk_spec (entries_weight [(".", root E)]) [(".", root E)] [] [])
    as [_ Hlog]; [done|].
  rewrite Hlog. cbn [app errors_of_queue flat_map fst snd]. rewrite app_nil_r.
  apply listing_errors_lines.
Qed.

(** The script with the worklist, when the working directory can be read:
    the banner, what discovery prints, the loop, the closing lines. *)
Lemma worklist_main_run d cwd :
  process_cwd E = inr cwd ->
  let b := WorklistScript.batches E (worklist_files E) 0 0 d in
  WorklistScript.main E d =
  mkRes (Ret tt) (disk b) (ops b)
    ([LStarting; LStartTime; LCurrentDirectory cwd]
     ++ snd (walk [(".", root E)] [] [])
     ++ [LFound (length (worklist_files E))]
     ++ out b
     ++ [LAllProcessed; LTotalTime; LStarted; LFinished]).
Proof.
  intros Hcwd b. unfold WorklistScript.main, try_catch.
  rewrite (worklist_find_run E d cwd Hcwd). fold b.
  unfold emit. cbn [outcome disk ops out app]. rewrite app_nil_r.
  by rewrite <- !app_assoc.
Qed.

(** The glob calls do not look at the disk, and end in a list or in an
    error. *)
Lemma glob_patterns_pure patterns acc d :
  (exists files, GlobScript.glob_patterns E patterns acc d = mkRes (Ret files) d [] []
                 /\ GlobScript.glob_patterns E patterns acc ∅ = mkRes (Ret files) ∅ [] []
                 /\ forall pattern, pattern ∈ patterns -> exists l, glob E pattern = inr l)
  \/ (exists pattern e, pattern ∈ patterns /\ glob E pattern = inl e
        /\ GlobScript.glob_patterns E patterns acc d = mkRes (Throw e) d [] []).
Proof.
  revert acc. induction patterns as [|pat rest IH]; intros acc.
  - left. exists acc. split; [done|]. split; [done|]. intros q Hq.
    by apply elem_of_nil in Hq.
  - cbn [GlobScript.glob_patterns]. destruct (glob E pat) as [e|files] eqn:Hg.
    + right. exists pat, e. split; [constructor|]. split; [done|].
      cbn [lift_result]. by mrun.
    + cbn [lift_result]. mrun.
      destruct (IH (acc ++ files)) as [(l & H1 & H2 & H3)|(q & e & Hq & He & H1)].
      * left. exists l. split; [done|]. split; [done|].
        intros q Hq. apply elem_of_cons in Hq as [->|Hq]; eauto.
      * right. exists q, e. split; [by constructor|]. done.
Qed.

(** The script with glob, after its glob calls. *)
Lemma glob_main_found d files :
  GlobScript.glob_patterns E (map (fun ext => "**/*" +:+ ext) IMAGE_EXTENSIONS) [] d
    = mkRes (Ret files) d [] [] ->
  let a := GlobScript.process_all E files (length files) 0 d in
  GlobScript.main E d =
  mkRes (Ret tt) (disk a) (ops a) (LFound (length files) :: out a ++ [LAllProcessed]).
Proof.
  intros Hf a. unfold GlobScript.main, GlobScript.findAndProcessImages.
  destruct (process_all_effects E (keep transformer_line) files (length files) 0 d)
    as [Ho _]; [done|].
  erewrite try_catch_of_Ret; [reflexivity|].
  erewrite try_catch_of_Ret; [reflexivity|].
  cbv zeta. erewrite bind_of_Ret by exact Hf. mrun.
  rewrite (bind_of_outcome_Ret _ _ _ _ Ho). mrun. fold a. unfold console, emit.
  cbn [outcome disk ops out app]. by rewrite !app_nil_r.
Qed.

Lemma glob_main_failed d e :
  GlobScript.glob_patterns E (map (fun ext => "**/*" +:+ ext) IMAGE_EXTENSIONS) [] d
    = mkRes (Throw e) d [] [] ->
  GlobScript.main E d = mkRes (Ret tt) d [] [LErrorFinding (message e)].
Proof.
  intros Hf. unfold GlobScript.main, GlobScript.findAndProcessImages.
  erewrite try_catch_of_Ret; [reflexivity|].
  erewrite try_catch_of_Throw.
  2:{ cbv zeta. erewrite bind_of_Throw by exact Hf. reflexivity. }
  unfold console, emit. cbn [outcome disk ops out app]. reflexivity.
Qed.

(** X12.  Two handlers never run.  The [catch] inside the batch loop is
    never entered, since [processImage] catches what its body throws; and
    the [catch] at the end of either script is never entered, since
    [findAndProcessImages] ends the process itself in the script with the
    worklist, and returns normally in the script with glob.  Hence neither
    script ever prints a "Failed to process" or an "An error occurred"
    line. *)
Theorem handlers_that_never_run d :
  List.filter is_dead_line (out (WorklistScript.main E d)) = []
  /\ List.filter is_dead_line (out (GlobScript.main E d)) = [].
Proof.
  assert (Hrun : forall files,
            List.filter is_dead_line (out (run_files E files d)) = []).
  { intros files. apply filter_none.
    eapply Forall_impl; [apply run_files_lines|]. intros l Hl. by destruct l. }
  split.
  - destruct (process_cwd E) as [e0|cwd] eqn:Hcwd.
    + by rewrite (worklist_main_no_cwd E d e0 Hcwd).
    + rewrite (worklist_main_run d cwd Hcwd). cbn [out].
      destruct (batches_effects E is_dead_line (worklist_files E) d)
        as (_ & _ & _ & Hout); [done..|].
      rewrite !List.filter_app, Hout, Hrun.
      rewrite (filter_none _ (snd _)); [done|].
      eapply Forall_impl; [apply walk_log_lines|]. by intros l (dir & msg & ->).
  - destruct (glob_patterns_pure (map (fun ext => "**/*" +:+ ext) IMAGE_EXTENSIONS) [] d)
      as [(files & Hf & _)|(q & e & _ & _ & Hf)].
    + rewrite (glob_main_found d files Hf). cbn [out List.filter is_dead_line].
      destruct (process_all_effects E (keep is_dead_line) files (length files) 0 d)
        as [_ (_ & _ & Hout)]; [done|].
      rewrite !flat_map_keep in Hout.
      by rewrite List.filter_app, Hout, Hrun.
    + by rewrite (glob_main_failed d e Hf).
Qed.

(** X13.  The script with glob ends with status 0 whatever happens: a glob
    call that throws is caught and logged by [findAndProcessImages], whose
    handler returns normally, and nothing else in it can throw, so that
    the [catch] of the last lines, with its [process.exit(1)], is never
    entered. *)
Theorem glob_script_always_exits_zero d :
  exit_code (GlobScript.main E d) = 0%Z.
Proof.
  destruct (glob_patterns_pure (map (fun ext => "**/*" +:+ ext) IMAGE_EXTENSIONS) [] d)
    as [(files & Hf & _)|(q & e & _ & _ & Hf)].
  - by rewrite (glob_main_found d files Hf).
  - by rewrite (glob_main_failed d e Hf).
Qed.

(** The calls stop at the first one that throws. *)
Lemma glob_patterns_first_failure before pattern after e acc d :
  (forall q, q ∈ before -> exists files, glob E q = inr files) ->
  glob E pattern = inl e ->
  GlobScript.glob_patterns E (before ++ pattern :: after) acc d
  = mkRes (Throw e) d [] [].
Proof.
  intros Hbefore He. revert acc.
  induction before as [|q before IH]; intros acc; cbn [app GlobScript.glob_patterns].
  - rewrite He. cbn [lift_result]. by mrun.
  - destruct (Hbefore q) as [files Hq]; [constructor|].
    rewrite Hq. cbn [lift_result]. mrun. apply IH.
    intros q' Hq'. apply Hbefore. by constructor.
Qed.

(** Among calls of which one throws, there is a first one that does. *)
Lemma first_failure_exists patterns pattern e :
  pattern ∈ patterns -> glob E pattern = inl e ->
  exists before first after e',
    patterns = before ++ first :: after
    /\ (forall q, q ∈ before -> exists files, glob E q = inr files)
    /\ glob E first = inl e'.
Proof.
  induction patterns as [|q rest IH]; intros Hin He; [by apply elem_of_nil in Hin|].
  destruct (glob E q) as [e0|files] eqn:Hq.
  - exists [], q, rest, e0. split; [done|]. split; [|done].
    intros q' Hq'. by apply elem_of_nil in Hq'.
  - apply elem_of_cons in Hin as [->|Hin]; [congruence|].
    destruct (IH Hin He) as (before & first & after & e' & -> & Hb & Hf).
    exists (q :: before), first, after, e'. split; [done|]. split; [|done].
    intros q' [->|Hq']%elem_of_cons; eauto.
Qed.

(** X14.  When a glob call throws, the calls before it having returned,
    the script with glob processes no file at all, not even the matches of
    the patterns that were globbed before: the disk is left as it is, no
    call is made on any file, and the only line printed carries the
    message of that call, the first one to throw, whatever the calls after
    it would have done. *)
Theorem one_failing_glob_stops_everything d before pattern after e :
  map (fun ext => "**/*" +:+ ext) IMAGE_EXTENSIONS = before ++ pattern :: after ->
  (forall q, q ∈ before -> exists files, glob E q = inr files) ->
  glob E pattern = inl e ->
  GlobScript.main E d = mkRes (Ret tt) d [] [LErrorFinding (message e)].
Proof.
  intros Hsplit Hbefore He. apply glob_main_failed. rewrite Hsplit.
  by apply glob_patterns_first_failure.
Qed.

(** A run over a list of files stays on the files and their temporary
    paths. *)
Lemma run_files_frame files d q :
  q ∉ files -> q ∉ map temp_of files ->
  disk (run_files E files d) !! q = d !! q.
Proof.
  revert d. induction files as [|p rest IH]; intros d Hq Ht; [done|].
  rewrite run_files_cons. cbn [emit disk].
  apply not_elem_of_cons in Hq as [Hqp Hq].
  cbn [map] in Ht. apply not_elem_of_cons in Ht as [Hqt Ht].
  rewrite IH by done. apply (confined_processImage E p).
  intros H. apply elem_of_cons in H as [->|H]; [done|].
  apply elem_of_cons in H as [->|H]; [done|]. by apply elem_of_nil in H.
Qed.

Lemma run_files_keeps files d q :
  q ∉ map temp_of files ->
  is_Some (d !! q) -> is_Some (disk (run_files E files d) !! q).
Proof.
  revert d. induction files as [|p rest IH]; intros d Ht Hq; [done|].
  rewrite run_files_cons. cbn [emit disk].
  cbn [map] in Ht. apply not_elem_of_cons in Ht as [Hqt Ht].
  apply IH; [done|].
  destruct (decide (q = p)) as [->|Hqp]; [by apply processImage_keeps|].
  rewrite (confined_processImage E p); [done|].
  intros H. apply elem_of_cons in H as [->|H]; [done|].
  apply elem_of_cons in H as [->|H]; [done|]. by apply elem_of_nil in H.
Qed.

(** What the two scripts leave on the disk and the calls they make are
    those of their files taken one after the other, when there are any. *)
Lemma worklist_main_effects d :
  (disk (WorklistScript.main E d) = d /\ ops (WorklistScript.main E d) = [])
  \/ (disk (WorklistScript.main E d) = disk (run_files E (worklist_files E) d)
      /\ ops (WorklistScript.main E d) = ops (run_files E (worklist_files E) d)).
Proof.
  destruct (process_cwd E) as [e|cwd] eqn:Hcwd.
  - left. by rewrite (worklist_main_no_cwd E d e Hcwd).
  - right. rewrite (worklist_main_run d cwd Hcwd). cbn [disk ops].
    destruct (batches_effects E transformer_line (worklist_files E) d)
      as (_ & Hd & Ho & _); done.
Qed.

Lemma glob_files_found files :
  GlobScript.glob_patterns E (map (fun ext => "**/*" +:+ ext) IMAGE_EXTENSIONS) [] ∅
    = mkRes (Ret files) ∅ [] [] ->
  glob_files E = files.
Proof. intros H. unfold glob_files. by rewrite H. Qed.

Lemma glob_main_effects d :
  (disk (GlobScript.main E d) = d /\ ops (GlobScript.main E d) = [])
  \/ (disk (GlobScript.main E d) = disk (run_files E (glob_files E) d)
      /\ ops (GlobScript.main E d) = ops (run_files E (glob_files E) d)).
Proof.
  destruct (glob_patterns_pure (map (fun ext => "**/*" +:+ ext) IMAGE_EXTENSIONS) [] d)
    as [(files & Hf & Hf0 & _)|(q & e & _ & _ & Hf)].
  - right. rewrite (glob_main_found d files Hf), (glob_files_found files Hf0).
    cbn [disk ops].
    destruct (process_all_effects E (keep transformer_line) files (length files) 0 d)
      as [_ (Hd & Ho & _)]; done.
  - left. by rewrite (glob_main_failed d e Hf).
Qed.

(** X15.  Either script changes nothing outside the files it discovered and
    their temporary paths: every other path of the disk holds after the
    run what it held before. *)
Theorem a_run_stays_on_the_discovered_files d q :
  (q ∉ worklist_files E -> q ∉ map temp_of (worklist_files E) ->
   disk (WorklistScript.main E d) !! q = d !! q)
  /\ (q ∉ glob_files E -> q ∉ map temp_of (glob_files E) ->
      disk (GlobScript.main E d) !! q = d !! q).
Proof.
  split; intros Hq Ht.
  - destruct (worklist_main_effects d) as [[-> _]|[-> _]]; [done|].
    by apply run_files_frame.
  - destruct (glob_main_effects d) as [[-> _]|[-> _]]; [done|].
    by apply run_files_frame.
Qed.

(** X16.  Neither script makes a file disappear, the temporary paths of the
    discovered files apart: a path that held a file before the run holds
    one after it, whichever of the probe, the resize and the compressor
    fails on the way.  (The calls of [fs] are the ones of this embedding:
    [unlinkSync] and [renameSync] throw on a missing path only, so that the
    rename that follows a successful write of the temporary file goes
    through.) *)
Theorem a_run_loses_no_file d q :
  is_Some (d !! q) ->
  (q ∉ map temp_of (worklist_files E) ->
   is_Some (disk (WorklistScript.main E d) !! q))
  /\ (q ∉ map temp_of (glob_files E) ->
      is_Some (disk (GlobScript.main E d) !! q)).
Proof.
  intros Hq. split; intros Ht.
  - destruct (worklist_main_effects d) as [[-> _]|[-> _]]; [done|].
    by apply run_files_keeps.
  - destruct (glob_main_effects d) as [[-> _]|[-> _]]; [done|].
    by apply run_files_keeps.
Qed.

(** X17.  When the working directory can be read, the script with the
    worklist does to the disk what [processImage] does on the discovered
    files taken in the order of discovery, makes the same calls in the same
    order, and the lines of [processImage] in its log are theirs, in that
    order: discovery and the reports on progress add lines and nothing
    else. *)
Theorem the_script_is_its_files_in_turn d cwd :
  process_cwd E = inr cwd ->
  let r := WorklistScript.main E d in
  let s := run_files E (worklist_files E) d in
  disk r = disk s /\ ops r = ops s
  /\ List.filter transformer_line (out r) = out s.
Proof.
  intros Hcwd r s. subst r s. rewrite (worklist_main_run d cwd Hcwd).
  cbn [disk ops out].
  destruct (batches_effects E transformer_line (worklist_files E) d)
    as (_ & Hd & Ho & Hout); [done..|].
  split; [done|]. split; [done|].
  rewrite !List.filter_app, Hout.
  rewrite (filter_all _ (out (run_files E (worklist_files E) d)))
    by apply run_files_lines.
  rewrite (filter_none _ (snd _)).
  2:{ eapply Forall_impl; [apply walk_log_lines|]. by intros l (dir & msg & ->). }
  cbn [List.filter transformer_line app]. by rewrite app_nil_r.
Qed.

(** X18.  The script with glob does to the disk what [processImage] does on
    the matches of its six patterns, taken pattern after pattern, makes the
    same calls in the same order, and the lines of [processImage] in its
    log are theirs, in that order; when a glob call throws there are no
    matches to take, and all of this holds with an empty list. *)
Theorem the_glob_script_is_its_files_in_turn d :
  let r := GlobScript.main E d in
  let s := run_files E (glob_files E) d in
  disk r = disk s /\ ops r = ops s
  /\ List.filter transformer_line (out r) = out s.
Proof.
  intros r s. subst r s.
  destruct (glob_patterns_pure (map (fun ext => "**/*" +:+ ext) IMAGE_EXTENSIONS) [] d)
    as [(files & Hf & Hf0 & _)|(q & e & Hq & He & Hf)].
  - rewrite (glob_main_found d files Hf), (glob_files_found files Hf0).
    cbn [disk ops out].
    destruct (process_all_effects E (keep transformer_line) files (length files) 0 d)
      as [_ (Hd & Ho & Hout)]; [done|].
    rewrite !flat_map_keep in Hout.
    split; [done|]. split; [done|].
    cbn [List.filter transformer_line]. rewrite List.filter_app, Hout.
    rewrite (filter_all _ (out (run_files E files d))) by apply run_files_lines.
    cbn [List.filter transformer_line]. by rewrite app_nil_r.
  - rewrite (glob_main_failed d e Hf). cbn [disk ops out List.filter transformer_line].
    assert (Hnone : glob_files E = []).
    { unfold glob_files.
      destruct (glob_patterns_pure (map (fun ext => "**/*" +:+ ext) IMAGE_EXTENSIONS) [] ∅)
        as [(files & _ & _ & Hall)|(q' & e' & _ & _ & ->)]; [|done].
      destruct (Hall q Hq) as [l Hl]. congruence. }
    by rewrite Hnone.
Qed.

End Scripts.

(** ** What discovery returns *)

Lemma sound_tree_cons name c l :
  sound_tree (Dir ((name, c) :: l)) =
  listed_name name && negb (Str.includes (map fst l) name)
  && sound_tree c && sound_tree (Dir l).
Proof. reflexivity. Qed.

Lemma take_while_stop f l x r :
  forallb f l = true -> f x = false -> Str.take_while f (l ++ x :: r) = l.
Proof.
  intros Hl Hx. induction l as [|c l IH]; cbn [app Str.take_while forallb] in *.
  - by rewrite Hx.
  - apply andb_true_iff in Hl as [Hc Hl]. rewrite Hc. by rewrite IH.
Qed.

Lemma entry_name_chars name :
  entry_name name = true ->
  Str.chars name <> []
  /\ forallb (fun c => negb (Str.is_slash c)) (Str.chars name) = true.
Proof.
  intros [Hne Hs]%andb_true_iff. split; [|done].
  apply negb_true_iff, String.eqb_neq in Hne. by destruct name.
Qed.

Lemma rev_basename_name name :
  entry_name name = true ->
  Str.rev_basename (Str.chars name) = rev (Str.chars name).
Proof.
  intros [_ Hs]%entry_name_chars. unfold Str.rev_basename.
  rewrite drop_while_none by (by rewrite forallb_rev).
  apply take_while_all. by rewrite forallb_rev.
Qed.

Lemma rev_basename_join dir name :
  entry_name name = true ->
  Str.rev_basename (Str.chars (path_join dir name)) = rev (Str.chars name).
Proof.
  intros Hn. unfold path_join. destruct (String.eqb dir ".");
    [by apply rev_basename_name|].
  destruct (entry_name_chars name Hn) as [Hne Hs].
  unfold Str.rev_basename. rewrite !chars_app, !rev_app_distr, <- app_assoc.
  change (rev (Str.chars "/")) with ["/"%char]. cbn [app].
  assert (Hall : forallb (fun c => negb (Str.is_slash c)) (rev (Str.chars name)) = true)
    by (by rewrite forallb_rev).
  destruct (rev (Str.chars name)) as [|x l] eqn:Hr.
  { apply (f_equal (@rev _)) in Hr. rewrite rev_involutive in Hr. done. }
  pose proof Hall as Hx. cbn [forallb] in Hx. apply andb_true_iff in Hx as [Hx _].
  cbn [app Str.drop_while]. rewrite (proj1 (negb_true_iff _) Hx).
  by apply (take_while_stop _ (x :: l)).
Qed.

Lemma extname_join dir name :
  entry_name name = true -> Str.extname (path_join dir name) = Str.extname name.
Proof.
  intros Hn. unfold Str.extname, Str.extname_chars.
  by rewrite rev_basename_join, rev_basename_name.
Qed.

(** What discovery selects passes the guard of [processImage]. *)
Lemma selected_is_recognized dir name :
  entry_name name = true -> is_image_name name = true ->
  recognized (path_join dir name).
Proof.
  intros Hn Hi. unfold recognized. rewrite extname_join by done.
  by apply includes_elem_of.
Qed.

Lemma listed_name_entry name : listed_name name = true -> entry_name name = true.
Proof. unfold listed_name. by intros [[? _]%andb_true_iff _]%andb_true_iff. Qed.

Lemma images_under_recognized n : forall dir p,
  sound_tree n = true -> p ∈ images_under dir n -> recognized p.
Proof.
  unfold images_under.
  induction n as [| | |entries IH] using Node_nested_ind; intros dir p Hs Hp;
    try (by apply elem_of_nil in Hp).
  induction IH as [|[name c] l Hc _ IHl]; [by apply elem_of_nil in Hp|].
  rewrite sound_tree_cons in Hs.
  apply andb_true_iff in Hs as [Hs Hl]. apply andb_true_iff in Hs as [Hs Hsc].
  apply andb_true_iff in Hs as [Hname _]. apply listed_name_entry in Hname.
  rewrite collect_Dir_cons, !elem_of_app in Hp. cbn [snd] in Hc.
  destruct Hp as [Hp|[Hp|Hp]]; [|by eapply Hc|by apply IHl].
  destruct (isFile c && is_image_name name) eqn:Hsel; [|by apply elem_of_nil in Hp].
  apply list_elem_of_singleton in Hp as ->.
  apply andb_true_iff in Hsel as [_ Hi]. by apply selected_is_recognized.
Qed.

(** *** No path is discovered twice *)

Lemma below_refl base : below base base.
Proof. exists []. split; [by rewrite app_nil_r|by left]. Qed.

Lemma listed_name_not_dot name : listed_name name = true -> name <> ".".
Proof.
  unfold listed_name. intros [[_ H]%andb_true_iff _]%andb_true_iff.
  by apply negb_true_iff, String.eqb_neq in H.
Qed.

Lemma path_join_not_dot dir name : listed_name name = true -> path_join dir name <> ".".
Proof.
  intros Hn. unfold path_join. destruct (String.eqb dir ".");
    [by apply listed_name_not_dot|].
  intros H. apply (f_equal Str.chars) in H. rewrite !chars_app in H.
  apply (f_equal length) in H. rewrite !length_app in H.
  destruct (entry_name_chars name (listed_name_entry _ Hn)) as [Hne _].
  destruct (Str.chars name); [done|]. cbn in H. lia.
Qed.

Lemma chars_path_join base name :
  base <> "." -> Str.chars (path_join base name) = Str.chars base ++ "/"%char :: Str.chars name.
Proof.
  intros Hb. unfold path_join. apply String.eqb_neq in Hb. rewrite Hb.
  by rewrite !chars_app.
Qed.

Lemma below_join base name p :
  base <> "." -> below (path_join base name) p -> below base p /\ p <> base.
Proof.
  intros Hb (tail & Hp & _). rewrite chars_path_join in Hp by done. split.
  - exists ("/"%char :: Str.chars name ++ tail).
    split; [by rewrite Hp, <- app_assoc|right; by eexists].
  - intros ->. apply (f_equal length) in Hp. rewrite !length_app in Hp.
    cbn in Hp. lia.
Qed.

(** What is collected in a directory lies at or below one of its entries. *)
Lemma collect_below sel desc n : forall dir p,
  sound_tree n = true -> p ∈ collect sel desc dir n ->
  exists name c entries, n = Dir entries /\ (name, c) ∈ entries
                         /\ below (path_join dir name) p.
Proof.
  induction n as [| | |entries IH] using Node_nested_ind; intros dir p Hs Hp;
    try (by apply elem_of_nil in Hp).
  assert (exists name c, (name, c) ∈ entries /\ below (path_join dir name) p)
    as (name & c & Hin & Hb); [|by exists name, c, entries].
  induction IH as [|[name c] l Hc _ IHl]; [by apply elem_of_nil in Hp|].
  rewrite sound_tree_cons in Hs.
  apply andb_true_iff in Hs as [Hs Hl]. apply andb_true_iff in Hs as [Hs Hsc].
  apply andb_true_iff in Hs as [Hname _].
  rewrite collect_Dir_cons, !elem_of_app in Hp. cbn [snd] in Hc.
  destruct Hp as [Hp|[Hp|Hp]].
  - destruct (sel name c); [|by apply elem_of_nil in Hp].
    apply list_elem_of_singleton in Hp as ->.
    exists name, c. split; [constructor|apply below_refl].
  - destruct (desc name c); [|by apply elem_of_nil in Hp].
    destruct (Hc _ _ Hsc Hp) as (name2 & c2 & entries2 & _ & _ & Hb).
    exists name, c. split; [constructor|].
    by destruct (below_join (path_join dir name) name2 p) as [Hb' _];
      [apply path_join_not_dot| |].
  - destruct (IHl Hl Hp) as (name2 & c2 & Hin & Hb).
    exists name2, c2. split; [by constructor|done].
Qed.

Lemma collect_strictly_below sel desc n dir p :
  dir <> "." -> sound_tree n = true -> p ∈ collect sel desc dir n -> p <> dir.
Proof.
  intros Hd Hs Hp.
  destruct (collect_below sel desc n dir p Hs Hp) as (name & c & entries & _ & _ & Hb).
  by destruct (below_join dir name p).
Qed.

(** The first component after a common base tells two entries apart. *)
Lemma name_of_tail (a b ta tb : list ascii) :
  forallb (fun c => negb (Str.is_slash c)) a = true ->
  forallb (fun c => negb (Str.is_slash c)) b = true ->
  (ta = [] \/ exists r, ta = "/"%char :: r) ->
  (tb = [] \/ exists r, tb = "/"%char :: r) ->
  a ++ ta = b ++ tb -> a = b.
Proof.
  revert b. induction a as [|x a IH]; intros b Ha Hb Hta Htb Heq.
  - destruct b as [|y b]; [done|]. cbn [app] in Heq.
    cbn [forallb] in Hb. apply andb_true_iff in Hb as [Hy _].
    destruct Hta as [->|[r ->]]; [done|]. by injection Heq as <- _.
  - cbn [forallb] in Ha. apply andb_true_iff in Ha as [Hx Ha].
    destruct b as [|y b].
    + cbn [app] in Heq. destruct Htb as [->|[r ->]]; [done|].
      by injection Heq as -> _.
    + cbn [app forallb] in *. apply andb_true_iff in Hb as [Hy Hb].
      injection Heq as -> Heq. f_equal. by apply (IH b).
Qed.

Lemma below_same_entry dir name1 name2 p :
  listed_name name1 = true -> listed_name name2 = true ->
  below (path_join dir name1) p -> below (path_join dir name2) p -> name1 = name2.
Proof.
  intros H1%listed_name_entry H2%listed_name_entry
    (t1 & Hp1 & Ht1) (t2 & Hp2 & Ht2).
  destruct (entry_name_chars _ H1) as [_ Hs1].
  destruct (entry_name_chars _ H2) as [_ Hs2].
  rewrite Hp1 in Hp2. clear Hp1.
  assert (Heq : Str.chars name1 ++ t1 = Str.chars name2 ++ t2).
  { unfold path_join in Hp2. destruct (String.eqb dir "."); [done|].
    rewrite !chars_app, <- !app_assoc in Hp2. by simplify_list_eq. }
  apply (name_of_tail _ _ _ _ Hs1 Hs2 Ht1 Ht2) in Heq.
  rewrite <- (of_chars_chars name1), <- (of_chars_chars name2). by rewrite Heq.
Qed.

Lemma sound_tree_entry l name c :
  sound_tree (Dir l) = true -> (name, c) ∈ l -> listed_name name = true.
Proof.
  induction l as [|[n0 c0] l IH]; intros Hs Hin; [by apply elem_of_nil in Hin|].
  rewrite sound_tree_cons in Hs.
  apply andb_true_iff in Hs as [Hs Hl]. apply andb_true_iff in Hs as [Hs _].
  apply andb_true_iff in Hs as [Hname _].
  apply elem_of_cons in Hin as [[= -> ->]|Hin]; [done|by apply IH].
Qed.

Lemma nodup_collect sel desc n : forall dir,
  sound_tree n = true -> NoDup (collect sel desc dir n).
Proof.
  induction n as [| | |entries IH] using Node_nested_ind; intros dir Hs;
    try apply NoDup_nil_2.
  induction IH as [|[name c] l Hc _ IHl]; [apply NoDup_nil_2|].
  pose proof Hs as Hs0.
  rewrite sound_tree_cons in Hs.
  apply andb_true_iff in Hs as [Hs Hl]. apply andb_true_iff in Hs as [Hs Hsc].
  apply andb_true_iff in Hs as [Hname Hfresh].
  apply negb_true_iff, includes_false in Hfresh.
  rewrite collect_Dir_cons. cbn [snd] in Hc.
  assert (Hhere : forall p,
    p ∈ (if sel name c then [path_join dir name] else [])
        ++ (if desc name c then collect sel desc (path_join dir name) c else []) ->
    below (path_join dir name) p).
  { intros p [Hp|Hp]%elem_of_app.
    - destruct (sel name c); [|by apply elem_of_nil in Hp].
      apply list_elem_of_singleton in Hp as ->. apply below_refl.
    - destruct (desc name c); [|by apply elem_of_nil in Hp].
      destruct (collect_below _ _ _ _ _ Hsc Hp) as (n2 & c2 & e2 & _ & _ & Hb).
      by destruct (below_join (path_join dir name) n2 p) as [Hb' _];
        [apply path_join_not_dot| |]. }
  rewrite app_assoc. apply NoDup_app. split; [|split].
  - apply NoDup_app. split; [|split].
    + destruct (sel name c); [apply NoDup_singleton|apply NoDup_nil_2].
    + intros p Hp Hp2. destruct (sel name c); [|by apply elem_of_nil in Hp].
      apply list_elem_of_singleton in Hp as ->.
      destruct (desc name c); [|by apply elem_of_nil in Hp2].
      by apply collect_strictly_below in Hp2; [|apply path_join_not_dot|].
    + destruct (desc name c); [by apply Hc|apply NoDup_nil_2].
  - intros p Hp Hp2. apply Hhere in Hp.
    destruct (collect_below _ _ _ _ _ Hl Hp2) as (n2 & c2 & e2 & [= <-] & Hin & Hb).
    pose proof (sound_tree_entry l n2 c2 Hl Hin) as Hn2.
    pose proof (below_same_entry dir name n2 p Hname Hn2 Hp Hb) as ->.
    apply Hfresh. apply list_elem_of_fmap. by exists (n2, c2).
  - by apply IHl.
Qed.

Lemma worklist_files_nodup E :
  sound_tree (root E) = true -> NoDup (worklist_files E).
Proof.
  intros Hs. rewrite worklist_files_images. by apply nodup_collect.
Qed.

(** ** Discovery and the run together *)

Section Whole.

Context (E : Env).

Lemma closing_of_batches files d :
  (forall p, p ∈ files -> recognized p) ->
  omap closing_path (out (WorklistScript.batches E files 0 0 d)) = files.
Proof.
  intros Hrec. etrans; [|exact (closing_of_run E files d Hrec)].
  rewrite !omap_flat_map. by apply batches_run_files.
Qed.

Lemma worklist_files_recognized :
  sound_tree (root E) = true -> forall p, p ∈ worklist_files E -> recognized p.
Proof.
  intros Hs p Hp. rewrite worklist_files_images in Hp.
  by apply (images_under_recognized (root E) ".").
Qed.

(** X19.  On a tree as a file system holds it (every name is one a listing
    can return, no directory holds two entries of one name), discovery
    returns no path twice, and every path it returns passes the extension
    guard of [processImage]: no file is processed twice in a run, and none
    that was discovered is skipped in silence. *)
Theorem discovery_returns_distinct_images :
  sound_tree (root E) = true ->
  NoDup (worklist_files E) /\ forall p, p ∈ worklist_files E -> recognized p.
Proof.
  intros Hs. split; [by apply worklist_files_nodup|by apply worklist_files_recognized].
Qed.

(** X20.  On a tree as a file system holds it ([sound_tree]), when the
    working directory can be read, the closing lines in the log of the
    script with the worklist, completions and errors together, name the
    discovered files, each of them once, in the order of discovery. *)
Theorem every_discovered_file_is_reported_once d cwd :
  sound_tree (root E) = true -> process_cwd E = inr cwd ->
  omap closing_path (out (WorklistScript.main E d)) = worklist_files E.
Proof.
  intros Hs Hcwd. rewrite (worklist_main_run E d cwd Hcwd). cbn [out].
  rewrite !omap_app, closing_of_batches by (by apply worklist_files_recognized).
  rewrite (omap_none _ (snd _)).
  2:{ eapply Forall_impl; [apply walk_log_lines|].
      by intros l (dir & msg & ->). }
  cbn. by rewrite app_nil_r.
Qed.

(** X21.  On a tree as a file system holds it ([sound_tree]), discovery
    never returns the temporary path of a resize: a temporary file that a
    failed resize left behind is not taken for an image by a later run. *)
Theorem leftover_temp_files_are_not_images q :
  sound_tree (root E) = true -> temp_of q ∉ worklist_files E.
Proof.
  intros Hs Hin. apply (temp_of_not_recognized q).
  by apply worklist_files_recognized.
Qed.

(** [processImage] on a file that needs no resize. *)
Lemma processImage_no_resize p d :
  (forall c, d !! p = Some c -> within_width E c) ->
  (forall q, q <> p -> disk (processImage E p d) !! q = d !! q)
  /\ (forall c, d !! p = Some c ->
        exists c', disk (processImage E p d) !! p = Some c' /\ length c' <= length c).
Proof.
  intros Hw.
  assert (Hsame : disk (processImage E p d) = d ->
    (forall q, q <> p -> disk (processImage E p d) !! q = d !! q)
    /\ (forall c, d !! p = Some c ->
          exists c', disk (processImage E p d) !! p = Some c' /\ length c' <= length c)).
  { intros ->. split; [done|]. intros c Hc. by exists c. }
  destruct (decide (recognized p)) as [Hrec|Hrec];
    [|apply Hsame; by rewrite (processImage_unrecognized E p d Hrec)].
  destruct (d !! p) as [c|] eqn:Hd;
    [|apply Hsame; by apply processImage_no_file].
  destruct (sharp_metadata E c) as [e|md] eqn:Hmd;
    [apply Hsame; by rewrite (corrupt_run E p c e d Hrec Hd Hmd)|].
  pose proof (resize_step_skip E p md d (Hw c eq_refl md Hmd)) as Hstep.
  rewrite (processImage_after_resize E p c md d [] c d Hrec Hd Hmd Hstep Hd).
  destruct (Str.includes _ _);
    [destruct (run_plugins E _ c) as [e|buf];
       [|destruct (length buf <? length c)%nat eqn:Hlt]|];
    cbn [disk]; try (split; [done|]; intros c0 [= <-]; by exists c).
  apply Nat.ltb_lt in Hlt. split.
  - intros q Hq. by rewrite lookup_insert_ne.
  - intros c0 [= <-]. exists buf. rewrite lookup_insert_eq. split; [done|lia].
Qed.

Lemma run_files_no_resize files : NoDup files -> forall d,
  (forall p c, p ∈ files -> d !! p = Some c -> within_width E c) ->
  forall q c, d !! q = Some c ->
  exists c', disk (run_files E files d) !! q = Some c' /\ length c' <= length c.
Proof.
  induction 1 as [|p rest Hp Hnd IH]; intros d Hw q c Hq; [by exists c|].
  rewrite run_files_cons. cbn [emit disk].
  destruct (processImage_no_resize p d) as [Hother Hself].
  { intros c0 Hc0. apply (Hw p); [constructor|done]. }
  assert (Hw' : forall p' c', p' ∈ rest ->
            disk (processImage E p d) !! p' = Some c' -> within_width E c').
  { intros p' c' Hin Hc'. rewrite Hother in Hc' by (by intros ->).
    apply (Hw p'); [by constructor|done]. }
  destruct (decide (q = p)) as [->|Hne].
  - destruct (Hself c Hq) as (c1 & Hc1 & Hlen).
    destruct (IH _ Hw' p c1 Hc1) as (c2 & Hc2 & Hlen2).
    exists c2. split; [done|lia].
  - apply (IH _ Hw'). by rewrite Hother.
Qed.

(** X22.  On a tree as a file system holds it ([sound_tree]), if no
    discovered file on the disk is wider than [MAX_WIDTH], the script with
    the worklist leaves every file of the disk in place, with a content
    that is no longer than before, whatever fails on the way. *)
Theorem a_run_without_resize_grows_no_file d q c :
  sound_tree (root E) = true ->
  (forall p c, p ∈ worklist_files E -> d !! p = Some c -> within_width E c) ->
  d !! q = Some c ->
  exists c', disk (WorklistScript.main E d) !! q = Some c' /\ length c' <= length c.
Proof.
  intros Hs Hw Hq.
  destruct (worklist_main_effects E d) as [[-> _]|[-> _]]; [by exists c|].
  by apply run_files_no_resize; [apply worklist_files_nodup| |].
Qed.

End Whole.

(** ** The further properties at concrete inputs *)

Ltac in_list H :=
  apply list_elem_of_In in H; vm_compute in H;
  repeat (destruct H as [H|H]; [try discriminate H|]); try contradiction.

(** X1 after one hour and five seconds. *)
Lemma elapsed_time_in_whole_seconds_witness :
  (1700000000000 <= 1700003605000)%Z
  /\ formatElapsedTime 1700003605000 1700000000000 = "1h 0m 5s".
Proof.
  assert (H : (1700000000000 <= 1700003605000)%Z) by lia.
  split; [exact H|].
  pose proof (elapsed_time_in_whole_seconds 1700003605000 1700000000000 H) as Hf.
  vm_compute in Hf. exact Hf.
Defined.

(** X2 with a clock set back by a minute, less half a second. *)
Lemma elapsed_time_after_a_clock_step_back_witness :
  (1700000000000 < 1700000059500)%Z
  /\ formatElapsedTime 1700000000000 1700000059500 = "-60s".
Proof.
  assert (H : (1700000000000 < 1700000059500)%Z) by lia.
  split; [exact H|].
  pose proof (proj1 (elapsed_time_after_a_clock_step_back
                       1700000000000 1700000059500 H)) as Hf.
  vm_compute in Hf. exact Hf.
Defined.

(** X3 at the empty file. *)
Lemma unreadable_image_is_left_alone_witness :
  recognized "broken.jpg"
  /\ corrupt demo demo_disk "broken.jpg"
  /\ exists msg,
       processImage demo "broken.jpg" demo_disk =
       mkRes (Ret tt) demo_disk [OpMetadata "broken.jpg"]
         [LProcessing "broken.jpg"; LErrorProcessing "broken.jpg" msg].
Proof.
  assert (H1 : recognized "broken.jpg") by (by apply includes_elem_of).
  assert (H2 : corrupt demo demo_disk "broken.jpg").
  { exists [], (mkError "Input buffer is empty"). split; reflexivity. }
  split; [exact H1|]. split; [exact H2|].
  exact (unreadable_image_is_left_alone demo "broken.jpg" demo_disk H1 (or_intror H2)).
Defined.

(** X4 at [photo.jpg], resized and then refused by the compressor. *)
Lemma compressor_failure_keeps_the_resize_witness :
  recognized "photo.jpg"
  /\ demo_disk !! "photo.jpg" = Some [x28; x01; x02; x03; x04]
  /\ sharp_resize crashing [x28; x01; x02; x03; x04] MAX_WIDTH
     = Written [x19; x01; x02; x03; x04]
  /\ run_plugins crashing [imageminMozjpeg 80] [x19; x01; x02; x03; x04]
     = inl (mkError "Command failed with exit code 1")
  /\ processImage crashing "photo.jpg" demo_disk =
     mkRes (Ret tt)
       (<["photo.jpg" := [x19; x01; x02; x03; x04]]>
          (delete (temp_of "photo.jpg") demo_disk))
       [OpMetadata "photo.jpg"; OpToFile "photo.jpg" (temp_of "photo.jpg");
        OpUnlink "photo.jpg"; OpRename (temp_of "photo.jpg") "photo.jpg";
        OpStat "photo.jpg"; OpReadFile "photo.jpg"; OpImagemin [imageminMozjpeg 80]]
       [LProcessing "photo.jpg"; LResizing (Some 4000%N);
        LErrorProcessing "photo.jpg" "Command failed with exit code 1"].
Proof.
  assert (H1 : recognized "photo.jpg") by (by apply includes_elem_of).
  assert (H2 : demo_disk !! "photo.jpg" = Some [x28; x01; x02; x03; x04])
    by reflexivity.
  assert (H3 : sharp_metadata crashing [x28; x01; x02; x03; x04]
               = inr (mkMetadata (Some 4000%N))) by reflexivity.
  assert (H4 : js_gt (width (mkMetadata (Some 4000%N))) MAX_WIDTH = true)
    by reflexivity.
  assert (H5 : sharp_resize crashing [x28; x01; x02; x03; x04] MAX_WIDTH
               = Written [x19; x01; x02; x03; x04]) by reflexivity.
  assert (H6 : Str.includes [".jpg"; ".jpeg"; ".png"; ".gif"; ".svg"]
                 (Str.toLowerCase (Str.extname "photo.jpg")) = true) by reflexivity.
  assert (H7 : run_plugins crashing
                 (plugins_for (Str.toLowerCase (Str.extname "photo.jpg")))
                 [x19; x01; x02; x03; x04]
               = inl (mkError "Command failed with exit code 1")) by reflexivity.
  split; [exact H1|]. split; [exact H2|]. split; [exact H5|]. split; [exact H7|].
  exact (compressor_failure_keeps_the_resize crashing "photo.jpg" _ _ _ _ demo_disk
           H1 H2 H3 H4 H5 H6 H7).
Defined.

(** X5 at a file whose width the probe leaves undefined. *)
Lemma resize_is_announced_even_when_not_attempted_witness :
  recognized "icon.png"
  /\ demo_disk !! "icon.png" = Some [x01; x02]
  /\ sharp_metadata blind [x01; x02] = inr (mkMetadata None)
  /\ LResizing None ∈ out (processImage blind "icon.png" demo_disk)
  /\ List.filter is_resize_op (ops (processImage blind "icon.png" demo_disk)) = [].
Proof.
  assert (H1 : recognized "icon.png") by (by apply includes_elem_of).
  assert (H2 : demo_disk !! "icon.png" = Some [x01; x02]) by reflexivity.
  assert (H3 : sharp_metadata blind [x01; x02] = inr (mkMetadata None))
    by reflexivity.
  split; [exact H1|]. split; [exact H2|]. split; [exact H3|].
  destruct (resize_is_announced_even_when_not_attempted blind "icon.png" _ _
              demo_disk H1 H2 H3) as (_ & _ & Hnone).
  exact (Hnone eq_refl).
Defined.

(** X7 at [icon.png]. *)
Lemma a_report_opens_and_closes_once_witness :
  recognized "icon.png"
  /\ exists mid last,
       out (processImage demo "icon.png" demo_disk)
       = LProcessing "icon.png" :: mid ++ [last]
       /\ Forall body_line mid
       /\ (last = LCompleted "icon.png"
           \/ exists msg, last = LErrorProcessing "icon.png" msg).
Proof.
  assert (H1 : recognized "icon.png") by (by apply includes_elem_of).
  split; [exact H1|].
  exact (a_report_opens_and_closes_once demo "icon.png" demo_disk H1).
Defined.

(** X8 at three files of the example, one of them empty. *)
Lemma every_file_is_accounted_for_witness :
  let files := ["photo.jpg"; "broken.jpg"; "icon.png"] in
  (forall p, p ∈ files -> recognized p)
  /\ omap closing_path (out (WorklistScript.batches demo files 0 0 demo_disk)) = files.
Proof.
  intros files.
  assert (H : forall p, p ∈ files -> recognized p).
  { intros p Hp. apply list_elem_of_In in Hp.
    destruct Hp as [<-|[<-|[<-|[]]]]; by apply includes_elem_of. }
  split; [exact H|].
  exact (proj1 (every_file_is_accounted_for demo files demo_disk H)).
Defined.

(** X11 in a run of twelve files: the estimate is printed after the
    eleventh. *)
Lemma estimate_needs_eleven_files_and_a_rest_witness :
  LEstimatedCompletion
  ∈ out (WorklistScript.batches demo (replicate 12 "icon.png") 0 0 demo_disk).
Proof.
  pose proof (estimate_needs_eleven_files_and_a_rest demo (replicate 12 "icon.png")
                demo_disk) as H.
  cbv zeta in H. apply H. exists 11. cbn [length replicate].
  split; [lia|]. split; [lia|]. reflexivity.
Defined.

(** X14 when the calls for [.png] and for [.svg] throw: the message is
    the one of the call for [.png], the third of the six. *)
Lemma one_failing_glob_stops_everything_witness :
  map (fun ext => "**/*" +:+ ext) IMAGE_EXTENSIONS
  = ["**/*.jpg"; "**/*.jpeg"] ++ "**/*.png" :: ["**/*.gif"; "**/*.webp"; "**/*.svg"]
  /\ glob choked "**/*.jpg"
     = inr ["/srv/uploads/photo.jpg"; "/srv/uploads/broken.jpg"]
  /\ glob choked "**/*.jpeg" = inr ["/srv/uploads/2020/Scan.JPEG"]
  /\ glob choked "**/*.png"
     = inl (mkError "EMFILE: too many open files, scandir '/srv/uploads'")
  /\ glob choked "**/*.svg"
     = inl (mkError "EIO: i/o error, scandir '/srv/uploads/2020'")
  /\ GlobScript.main choked demo_disk
     = mkRes (Ret tt) demo_disk []
         [LErrorFinding "EMFILE: too many open files, scandir '/srv/uploads'"].
Proof.
  assert (H1 : map (fun ext => "**/*" +:+ ext) IMAGE_EXTENSIONS
               = ["**/*.jpg"; "**/*.jpeg"] ++ "**/*.png"
                 :: ["**/*.gif"; "**/*.webp"; "**/*.svg"]) by reflexivity.
  assert (Hjpg : glob choked "**/*.jpg"
                 = inr ["/srv/uploads/photo.jpg"; "/srv/uploads/broken.jpg"])
    by (vm_compute; reflexivity).
  assert (Hjpeg : glob choked "**/*.jpeg" = inr ["/srv/uploads/2020/Scan.JPEG"])
    by (vm_compute; reflexivity).
  assert (H2 : forall q, q ∈ ["**/*.jpg"; "**/*.jpeg"] ->
                 exists files, glob choked q = inr files).
  { intros q Hq. apply list_elem_of_In in Hq.
    destruct Hq as [<-|[<-|[]]]; eexists; [exact Hjpg|exact Hjpeg]. }
  assert (H3 : glob choked "**/*.png"
               = inl (mkError "EMFILE: too many open files, scandir '/srv/uploads'"))
    by reflexivity.
  assert (H4 : glob choked "**/*.svg"
               = inl (mkError "EIO: i/o error, scandir '/srv/uploads/2020'"))
    by reflexivity.
  split; [exact H1|]. split; [exact Hjpg|]. split; [exact Hjpeg|].
  split; [exact H3|]. split; [exact H4|].
  exact (one_failing_glob_stops_everything choked demo_disk _ _ _ _ H1 H2 H3).
Defined.

(** X15 at [notes.txt], which is not an image. *)
Lemma a_run_stays_on_the_discovered_files_witness :
  ("notes.txt" ∉ worklist_files demo)
  /\ ("notes.txt" ∉ map temp_of (worklist_files demo))
  /\ disk (WorklistScript.main demo demo_disk) !! "notes.txt" = demo_disk !! "notes.txt".
Proof.
  assert (H1 : "notes.txt" ∉ worklist_files demo) by (intros H; in_list H).
  assert (H2 : "notes.txt" ∉ map temp_of (worklist_files demo))
    by (intros H; in_list H).
  split; [exact H1|]. split; [exact H2|].
  exact (proj1 (a_run_stays_on_the_discovered_files demo demo_disk "notes.txt") H1 H2).
Defined.

(** X16 at the empty file, on which the probe fails. *)
Lemma a_run_loses_no_file_witness :
  is_Some (demo_disk !! "broken.jpg")
  /\ ("broken.jpg" ∉ map temp_of (worklist_files demo))
  /\ is_Some (disk (WorklistScript.main demo demo_disk) !! "broken.jpg").
Proof.
  assert (H1 : is_Some (demo_disk !! "broken.jpg")) by (by exists []).
  assert (H2 : "broken.jpg" ∉ map temp_of (worklist_files demo))
    by (intros H; in_list H).
  split; [exact H1|]. split; [exact H2|].
  exact (proj1 (a_run_loses_no_file demo demo_disk "broken.jpg" H1) H2).
Defined.

(** X17 in the example world. *)
Lemma the_script_is_its_files_in_turn_witness :
  process_cwd demo = inr demo_cwd
  /\ ops (WorklistScript.main demo demo_disk)
     = ops (run_files demo (worklist_files demo) demo_disk)
  /\ List.filter transformer_line (out (WorklistScript.main demo demo_disk))
     = out (run_files demo (worklist_files demo) demo_disk).
Proof.
  assert (H : process_cwd demo = inr demo_cwd) by reflexivity.
  split; [exact H|].
  exact (proj2 (the_script_is_its_files_in_turn demo demo_disk demo_cwd H)).
Defined.

(** X19 on the example tree. *)
Lemma discovery_returns_distinct_images_witness :
  sound_tree (root demo) = true
  /\ NoDup (worklist_files demo)
  /\ forall p, p ∈ worklist_files demo -> recognized p.
Proof.
  assert (H : sound_tree (root demo) = true) by reflexivity.
  split; [exact H|].
  exact (discovery_returns_distinct_images demo H).
Defined.

(** X20 in the example world. *)
Lemma every_discovered_file_is_reported_once_witness :
  sound_tree (root demo) = true
  /\ process_cwd demo = inr demo_cwd
  /\ omap closing_path (out (WorklistScript.main demo demo_disk))
     = ["photo.jpg"; "icon.png"; "broken.jpg"; "2020/banner.webp"; "2020/Scan.JPEG"].
Proof.
  assert (H1 : sound_tree (root demo) = true) by reflexivity.
  assert (H2 : process_cwd demo = inr demo_cwd) by reflexivity.
  split; [exact H1|]. split; [exact H2|].
  exact (every_discovered_file_is_reported_once demo demo_disk demo_cwd H1 H2).
Defined.

(** X21 at the temporary path of [photo.jpg]. *)
Lemma leftover_temp_files_are_not_images_witness :
  sound_tree (root demo) = true
  /\ temp_of "photo.jpg" ∉ worklist_files demo.
Proof.
  assert (H : sound_tree (root demo) = true) by reflexivity.
  split; [exact H|].
  exact (leftover_temp_files_are_not_images demo "photo.jpg" H).
Defined.

(** X22 on a disk whose images are within the width limit, at a photo that
    the compressor shrinks. *)
Lemma a_run_without_resize_grows_no_file_witness :
  sound_tree (root demo) = true
  /\ (forall p c, p ∈ worklist_files demo -> calm_disk !! p = Some c ->
        within_width demo c)
  /\ calm_disk !! "photo.jpg" = Some [x19; x02; x03]
  /\ exists c', disk (WorklistScript.main demo calm_disk) !! "photo.jpg" = Some c'
                /\ length c' <= 3.
Proof.
  assert (H1 : sound_tree (root demo) = true) by reflexivity.
  assert (H2 : forall p c, p ∈ worklist_files demo -> calm_disk !! p = Some c ->
                 within_width demo c).
  { intros p c Hp Hc. apply list_elem_of_In in Hp. vm_compute in Hp.
    destruct Hp as [<-|[<-|[<-|[<-|[<-|[]]]]]]; vm_compute in Hc;
      try discriminate Hc; injection Hc as <-;
      intros md Hmd; vm_compute in Hmd; injection Hmd as <-; reflexivity. }
  assert (H3 : calm_disk !! "photo.jpg" = Some [x19; x02; x03]) by reflexivity.
  split; [exact H1|]. split; [exact H2|]. split; [exact H3|].
  exact (a_run_without_resize_grows_no_file demo calm_disk "photo.jpg" _ H1 H2 H3).
Defined.
